(** * The delivery robot of [robot.js]: graph, village state, route search, robots

    A shallow embedding of [src/robot.js] and the properties its
    specification states about it.  JavaScript values that the program
    manipulates are modelled as they occur: a place is a string, or the
    value [undefined] where the program can produce it (a road descriptor
    without a dash, the head of an empty route); the road graph is the
    null-prototype object of [buildGraph], a finite map from property keys
    to arrays; a call either returns, throws a [TypeError], or (for the
    loops that the program leaves unbounded) is cut off by the step budget
    of the model. *)

From Stdlib Require Import Ascii String QArith.
From stdpp Require Import gmap strings list fin_maps.

Local Open Scope string_scope.
Local Open Scope list_scope.
Local Open Scope nat_scope.

(** ** JavaScript values and completions *)

(** The values a place variable can hold in the program. *)
Inductive value : Type :=
  | undefined
  | str (s : string).

#[global] Instance value_eq_dec : EqDecision value.
Proof. solve_decision. Defined.

(** The property key under which a value indexes an object:
    [graph[undefined]] reads the property named "undefined". *)
Definition to_key (v : value) : string :=
  match v with
  | undefined => "undefined"
  | str s => s
  end.

(** The places where the program can raise a [TypeError]. *)
Inductive type_error : Type :=
  | NotIterable                 (* [for (... of undefined)] *)
  | ReadOfUndefined (prop : string) (* [undefined.prop], [undefined[0]] *)
  | ReduceOfEmpty.              (* [[].reduce(f)] with no initial value *)

Inductive exn : Type :=
  | TypeError (why : type_error).

(** The outcome of a call: a returned value, a thrown exception, or the
    exhaustion of the model's step budget. *)
Inductive outcome (A : Type) : Type :=
  | Ret (a : A)
  | Exn (e : exn)
  | OutOfFuel.
Arguments Ret {A} a.
Arguments Exn {A} e.
Arguments OutOfFuel {A}.

(** Sequencing: an exception or a cut-off in the first call ends the
    whole computation.  With this instance [x ← m; k] is stdpp's
    notation for it. *)
#[global] Instance outcome_bind : MBind outcome := fun A B k m =>
  match m with
  | Ret a => k a
  | Exn e => Exn e
  | OutOfFuel => OutOfFuel
  end.

#[global] Instance outcome_ret : MRet outcome := @Ret.

(** [array.map(f)] for a callback [f] that may throw is stdpp's [mapM f]
    at this monad: left to right, stopping at the first exception. *)

(** ** Part 2: the road graph *)

(** [r.split("-")]: the pieces of [r] between dashes; never empty. *)
Fixpoint split (r : string) : list string :=
  match r with
  | EmptyString => [EmptyString]
  | String c r' =>
      if Ascii.eqb c "-"%char then EmptyString :: split r'
      else match split r' with
           | [] => [String c EmptyString]
           | piece :: pieces => String c piece :: pieces
           end
  end.

(** [array[i]] on an array of strings: [undefined] out of range. *)
Definition index (pieces : list string) (i : nat) : value :=
  match pieces !! i with
  | Some s => str s
  | None => undefined
  end.

(** The object built by [buildGraph]: own properties only. *)
Abbreviation Graph := (gmap string (list value)).

(** [addEdge(from, to)], with the graph threaded through. *)
Definition addEdge (graph : Graph) (from to : value) : Graph :=
  match graph !! to_key from with
  | Some dests => <[to_key from := dests ++ [to]]> graph
  | None => <[to_key from := [to]]> graph
  end.

(** The body of the [for] loop of [buildGraph], for the pieces
    [[from, to]] of one descriptor: both directions are added. *)
Definition add_road (graph : Graph) (pieces : list string) : Graph :=
  let from := index pieces 0 in
  let to := index pieces 1 in
  addEdge (addEdge graph from to) to from.

Definition buildGraph (edges : list string) : Graph :=
  fold_left add_road (map split edges) ∅.

Definition roads : list string :=
  [ "Alice's House-Bob's House";
    "Alice's House-Cabin";
    "Alice's House-Post Office";
    "Bob's House-Town Hall";
    "Daria's House-Ernie's House";
    "Daria's House-Town Hall";
    "Ernie's House-Grete's House";
    "Grete's House-Farm";
    "Grete's House-Shop";
    "Marketplace-Farm";
    "Marketplace-Post Office";
    "Marketplace-Shop";
    "Marketplace-Town Hall";
    "Shop-Town Hall" ].

Definition roadGraph : Graph := buildGraph roads.

(** ** Part 8: route search *)

(** An item [{at, route}] of the work list. *)
Record WorkItem : Type := mkWork { at_ : value; route : list value }.

(** The inner [for (let place of graph[at])] loop of [findRoute]: either
    the function returns a route ([inl]), or the loop ends with the work
    list possibly extended ([inr]). *)
Fixpoint scan (to : value) (route : list value) (places : list value)
    (work : list WorkItem) : list value + list WorkItem :=
  match places with
  | [] => inr work
  | place :: places' =>
      if decide (place = to) then inl (route ++ [place])
      else if existsb (fun w => bool_decide (at_ w = place)) work
           then scan to route places' work
           else scan to route places' (work ++ [mkWork place (route ++ [place])])
  end.

(** The outer [for (let i = 0; i < work.length; i++)] loop.  Falling off
    its end returns [undefined], modelled as [Ret None]. *)
Fixpoint findRoute_loop (fuel : nat) (graph : Graph) (to : value)
    (work : list WorkItem) (i : nat) : outcome (option (list value)) :=
  match fuel with
  | O => OutOfFuel
  | S fuel' =>
      match work !! i with
      | None => Ret None
      | Some w =>
          match graph !! to_key (at_ w) with
          | None => Exn (TypeError NotIterable)
          | Some places =>
              match scan to (route w) places work with
              | inl found => Ret (Some found)
              | inr work' => findRoute_loop fuel' graph to work' (S i)
              end
          end
      end
  end.

(** Every element of every adjacency array of the graph. *)
Definition all_places (graph : Graph) : list value :=
  mjoin (snd <$> map_to_list graph).

(** The work list holds the start and distinct places taken from the
    adjacency arrays, so this many iterations always suffice (proved
    below as [findRoute_loop_spec]). *)
Definition findRoute_fuel (graph : Graph) : nat :=
  S (S (length (all_places graph))).

Definition findRoute (graph : Graph) (from to : value)
    : outcome (option (list value)) :=
  findRoute_loop (findRoute_fuel graph) graph to [mkWork from []] 0.

(** ** Part 3: the village state *)

(** A parcel [{place, address}]: where it is and where it has to go. *)
Record Parcel : Type := mkParcel { place : value; address : value }.

(** The class [VillageState]; [robot_place] is its field [place], the
    name that is taken here by the field of a parcel. *)
Record VillageState : Type :=
  mkVillageState { robot_place : value; parcels : list Parcel }.

#[global] Instance Parcel_eq_dec : EqDecision Parcel.
Proof. solve_decision. Defined.

#[global] Instance VillageState_eq_dec : EqDecision VillageState.
Proof. solve_decision. Defined.

(** What a robot returns: [{direction, memory}]. *)
Record Action (M : Type) : Type := mkAction { direction : value; memory : M }.
Arguments mkAction {M} direction memory.
Arguments direction {M} a.
Arguments memory {M} a.

(** A candidate of [lazyRobot]: [{route, pickUp}], where the route is
    whatever [findRoute] returned, [undefined] ([None]) included. *)
Record Candidate : Type :=
  mkCandidate { cand_route : option (list value); pickUp : bool }.

(** A line that [runRobot] writes: [Moved to ${direction}] or
    [Done in ${turn} turns]. *)
Inductive Line : Type :=
  | Moved (direction : value)
  | Done (turn : nat).

(** [x > y] on the half-integers that [score] produces (exact in floating
    point for every route length the program can build). *)
Definition Qgtb (x y : Q) : bool := negb (Qle_bool x y).

(** [array.reduce(f)] without an initial value. *)
Definition reduce {A : Type} (f : A → A → outcome A) (l : list A) : outcome A :=
  match l with
  | [] => Exn (TypeError ReduceOfEmpty)
  | a :: l' => foldl (fun acc b => a' ← acc; f a' b) (Ret a) l'
  end.

(** The program reads one global graph, [roadGraph]; the functions that
    read it are taken here over an arbitrary [graph], and the program is
    their instance at [roadGraph]. *)
Section Village.

Variable graph : Graph.

(** [VillageState.prototype.move]. *)
Definition move (this : VillageState) (destinations : value)
    : outcome VillageState :=
  match graph !! to_key (robot_place this) with
  | None => Exn (TypeError (ReadOfUndefined "includes"))
  | Some places =>
      if negb (bool_decide (destinations ∈ places)) then Ret this
      else
        let parcels' :=
          filter (fun p => place p ≠ address p)
            (map (fun p =>
                    if decide (place p ≠ robot_place this) then p
                    else mkParcel destinations (address p))
               (parcels this)) in
        Ret (mkVillageState destinations parcels')
  end.

(** [route[0]] and [route.slice(1)] of the last statement of the two
    route-following robots; [route] may be [undefined]. *)
Definition follow (route : option (list value)) : outcome (Action (list value)) :=
  match route with
  | None => Exn (TypeError (ReadOfUndefined "0"))
  | Some r => Ret (mkAction (default undefined (head r)) (drop 1 r))
  end.

Definition goalOrientedRobot (state : VillageState) (route : list value)
    : outcome (Action (list value)) :=
  route' ←
    (if bool_decide (length route = 0) then
       match parcels state !! 0 with
       | None => Exn (TypeError (ReadOfUndefined "place"))
       | Some parcel =>
           if decide (place parcel ≠ robot_place state)
           then findRoute graph (robot_place state) (place parcel)
           else findRoute graph (robot_place state) (address parcel)
       end
     else Ret (Some route));
  follow route'.

(** The callback of [parcels.map] in [lazyRobot]. *)
Definition candidate (here : value) (parcel : Parcel) : outcome Candidate :=
  if decide (place parcel ≠ here)
  then r ← findRoute graph here (place parcel); Ret (mkCandidate r true)
  else r ← findRoute graph here (address parcel); Ret (mkCandidate r false).

Definition score (c : Candidate) : outcome Q :=
  match cand_route c with
  | None => Exn (TypeError (ReadOfUndefined "length"))
  | Some r => Ret ((if pickUp c then 1 # 2 else 0) - inject_Z (Z.of_nat (length r)))%Q
  end.

(** The callback of [routes.reduce]: [score(a) > score(b) ? a : b]. *)
Definition better (a b : Candidate) : outcome Candidate :=
  sa ← score a; sb ← score b; Ret (if Qgtb sa sb then a else b).

Definition lazyRobot (state : VillageState) (route : list value)
    : outcome (Action (list value)) :=
  route' ←
    (if bool_decide (length route = 0) then
       routes ← mapM (candidate (robot_place state)) (parcels state);
       best ← reduce better routes;
       Ret (cand_route best)
     else Ret (Some route));
  follow route'.

(** [countSteps]: the loop has no bound of its own, [fuel] bounds the
    number of iterations the model follows. *)
Fixpoint countSteps_from {M : Type} (fuel : nat) (steps : nat)
    (state : VillageState) (robot : VillageState → M → outcome (Action M))
    (mem : M) : outcome nat :=
  match fuel with
  | O => OutOfFuel
  | S fuel' =>
      if bool_decide (length (parcels state) = 0) then Ret steps
      else
        action ← robot state mem;
        state' ← move state (direction action);
        countSteps_from fuel' (S steps) state' robot (memory action)
  end.

Definition countSteps {M : Type} (fuel : nat) (state : VillageState)
    (robot : VillageState → M → outcome (Action M)) (mem : M) : outcome nat :=
  countSteps_from fuel 0 state robot mem.

(** [runRobot]: the same loop, writing a line to the console each turn.
    The result is the lines written and how the call ended. *)
Fixpoint runRobot_from {M : Type} (fuel : nat) (turn : nat)
    (state : VillageState) (robot : VillageState → M → outcome (Action M))
    (mem : M) : list Line * outcome () :=
  match fuel with
  | O => ([], OutOfFuel)
  | S fuel' =>
      if bool_decide (length (parcels state) = 0) then ([Done turn], Ret ())
      else
        match robot state mem with
        | Ret action =>
            match move state (direction action) with
            | Ret state' =>
                let '(lines, end_) :=
                  runRobot_from fuel' (S turn) state' robot (memory action) in
                (Moved (direction action) :: lines, end_)
            | Exn e => ([], Exn e)
            | OutOfFuel => ([], OutOfFuel)
            end
        | Exn e => ([], Exn e)
        | OutOfFuel => ([], OutOfFuel)
        end
  end.

Definition runRobot {M : Type} (fuel : nat) (state : VillageState)
    (robot : VillageState → M → outcome (Action M)) (mem : M)
    : list Line * outcome () :=
  runRobot_from fuel 0 state robot mem.

End Village.

(** ** The objects behind a state *)

(** The program's states, parcel arrays and parcels are objects that
    [move] reaches through references.  Here the store is a list of
    objects, a reference is an index into it, and an allocation appends:
    what [move] leaves untouched can then be said. *)
Inductive object : Type :=
  | ParcelObject (place address : value)
  | ArrayObject (elems : list nat)
  | StateObject (place : value) (parcels : nat).

Abbreviation Heap := (list object).

(** The parcel, parcel array and state that a reference stands for. *)
Definition read_parcel (heap : Heap) (r : nat) : option Parcel :=
  match heap !! r with
  | Some (ParcelObject pl ad) => Some (mkParcel pl ad)
  | _ => None
  end.

Definition read_parcels (heap : Heap) (r : nat) : option (list Parcel) :=
  match heap !! r with
  | Some (ArrayObject elems) => mapM (read_parcel heap) elems
  | _ => None
  end.

Definition read_state (heap : Heap) (r : nat) : option VillageState :=
  match heap !! r with
  | Some (StateObject pl parr) =>
      ps ← read_parcels heap parr; Some (mkVillageState pl ps)
  | _ => None
  end.

(** A property read through a reference that holds no object of the
    expected kind is a read on [undefined]. *)
Definition deref_parcel (heap : Heap) (r : nat) : outcome Parcel :=
  match read_parcel heap r with
  | Some p => Ret p
  | None => Exn (TypeError (ReadOfUndefined "place"))
  end.

(** [this.parcels.map(...)] of [move]: a parcel that is elsewhere is
    passed on by reference, one that is here gives a new object. *)
Fixpoint map_parcels (heap : Heap) (here dest : value) (elems : list nat)
    : outcome (Heap * list nat) :=
  match elems with
  | [] => Ret (heap, [])
  | r :: elems' =>
      p ← deref_parcel heap r;
      let '(heap1, r') :=
        if decide (place p ≠ here) then (heap, r)
        else (heap ++ [ParcelObject dest (address p)], length heap) in
      '(heap2, rs) ← map_parcels heap1 here dest elems';
      Ret (heap2, r' :: rs)
  end.

(** [.filter((p) => p.place != p.address)]. *)
Fixpoint filter_parcels (heap : Heap) (elems : list nat) : outcome (list nat) :=
  match elems with
  | [] => Ret []
  | r :: elems' =>
      p ← deref_parcel heap r;
      rs ← filter_parcels heap elems';
      Ret (if decide (place p ≠ address p) then r :: rs else rs)
  end.

(** [move] on references: [this] is a reference to a state in [heap];
    the result is the store after the call and the reference returned. *)
Definition move_ref (graph : Graph) (heap : Heap) (this : nat)
    (destinations : value) : outcome (Heap * nat) :=
  match heap !! this with
  | Some (StateObject here parr) =>
      match graph !! to_key here with
      | None => Exn (TypeError (ReadOfUndefined "includes"))
      | Some places =>
          if negb (bool_decide (destinations ∈ places)) then Ret (heap, this)
          else
            match heap !! parr with
            | Some (ArrayObject elems) =>
                '(heap1, mapped) ← map_parcels heap here destinations elems;
                let heap2 := heap1 ++ [ArrayObject mapped] in
                kept ← filter_parcels heap2 mapped;
                let heap3 := heap2 ++ [ArrayObject kept] in
                Ret (heap3 ++ [StateObject destinations (length heap2)],
                     length heap3)
            | _ => Exn (TypeError (ReadOfUndefined "map"))
            end
      end
  | _ => Exn (TypeError (ReadOfUndefined "place"))
  end.

(** * The vocabulary of the properties *)

(** ** Walks in the graph *)

(** [p] is an element of the array stored under the key [k]. *)
Definition listed (graph : Graph) (k : string) (p : value) : Prop :=
  ∃ places, graph !! k = Some places ∧ p ∈ places.

(** [b] is listed in the adjacency array of [a]. *)
Definition adjacent (graph : Graph) (a b : value) : Prop :=
  listed graph (to_key a) b.

(** [l] is the sequence of places visited by a walk that starts at [a]
    ([a] itself excluded, as in a route). *)
Fixpoint walk (graph : Graph) (a : value) (l : list value) : Prop :=
  match l with
  | [] => True
  | b :: l' => adjacent graph a b ∧ walk graph b l'
  end.

(** The place where a walk from [a] along [l] ends. *)
Definition walk_end (a : value) (l : list value) : value :=
  default a (last l).

(** [l] is a route from [from] to [to]: a walk of at least one road that
    ends at [to]. *)
Definition leads (graph : Graph) (from : value) (l : list value) (to : value) : Prop :=
  walk graph from l ∧ last l = Some to.

(** [r] is a shortest route from [from] to [to]. *)
Definition shortest_route (graph : Graph) (from : value) (r : list value)
    (to : value) : Prop :=
  leads graph from r to ∧ ∀ l, leads graph from l to → length r ≤ length l.

(** Every place listed as a neighbour has an adjacency array of its own. *)
Definition closed (graph : Graph) : Prop :=
  ∀ k places p, graph !! k = Some places → p ∈ places → is_Some (graph !! to_key p).

(** A road descriptor with both of its ends: it contains a dash. *)
Definition well_formed (r : string) : Prop := 2 ≤ length (split r).

(** What [findRoute] may return for a given pair of places. *)
Definition route_spec (graph : Graph) (from to : value)
    (res : option (list value)) : Prop :=
  match res with
  | Some r => shortest_route graph from r to
  | None => ∀ l, ¬ leads graph from l to
  end.

(** ** The invariant of the search loop *)

(** What holds of the work list each time the loop test [i < work.length]
    is evaluated. *)
Record search_inv (graph : Graph) (from to : value)
    (work : list WorkItem) (i : nat) : Prop := {
  (* the first item is the start *)
  inv_head : work !! 0 = Some (mkWork from []);
  (* each item carries a walk from the start to its place *)
  inv_walk : ∀ w, w ∈ work →
    walk graph from (route w) ∧ walk_end from (route w) = at_ w;
  (* no place occurs twice *)
  inv_nodup : NoDup (at_ <$> work);
  (* routes never get shorter along the list *)
  inv_sorted : ∀ j k wj wk, j ≤ k →
    work !! j = Some wj → work !! k = Some wk →
    length (route wj) ≤ length (route wk);
  (* and are at most one road longer than the route of the current item *)
  inv_front : ∀ wi wk, work !! i = Some wi → wk ∈ work →
    length (route wk) ≤ S (length (route wi));
  (* the items before [i] are done: the target is not among their
     neighbours, and every neighbour is in the list, one road further
     at most *)
  inv_done : ∀ j wj, j < i → work !! j = Some wj →
    ∃ places, graph !! to_key (at_ wj) = Some places ∧ (to ∉ places) ∧
      ∀ p, p ∈ places →
        ∃ wk, wk ∈ work ∧ at_ wk = p ∧ length (route wk) ≤ S (length (route wj));
  inv_bound : i ≤ length work
}.
Arguments inv_head {graph from to work i} _.
Arguments inv_walk {graph from to work i} _ w _.
Arguments inv_nodup {graph from to work i} _.
Arguments inv_sorted {graph from to work i} _ j k wj wk _ _ _.
Arguments inv_front {graph from to work i} _ wi wk _ _.
Arguments inv_done {graph from to work i} _ j wj _ _.
Arguments inv_bound {graph from to work i} _.

(** ** Built graphs *)

(** Each neighbour lists a place with the key it is listed under. *)
Definition mutual (graph : Graph) : Prop :=
  ∀ k p, listed graph k p → ∃ q, listed graph (to_key p) q ∧ to_key q = k.

(** [r] names [k] as one of its two ends. *)
Definition registers (r : string) (k : string) : Prop :=
  k = to_key (index (split r) 0) ∨ k = to_key (index (split r) 1).

(** Some road of the edge list has [p] as an end. *)
Definition registered_in (edges : list string) (p : value) : Prop :=
  ∃ r, r ∈ edges ∧ registers r (to_key p).

(** [to] can be reached from [from] by following roads (none, if they are
    the same place). *)
Definition reachable (graph : Graph) (from to : value) : Prop :=
  ∃ l, walk graph from l ∧ walk_end from l = to.

(** ** Parcels *)

(** The parcel after the robot leaves [here] for [dest]: carried along
    if it was at [here], untouched otherwise. *)
Definition relocate (here dest : value) (p : Parcel) : Parcel :=
  if decide (place p = here) then mkParcel dest (address p) else p.

(** A parcel that has arrived. *)
Definition delivered (p : Parcel) : Prop := place p = address p.

(** No parcel of the state has arrived. *)
Definition undelivered (state : VillageState) : Prop :=
  ∀ p, p ∈ parcels state → ¬ delivered p.

(** ** The lazy robot's choice *)

(** The score of a candidate that has a route. *)
Definition score_of (c : Candidate) : Q :=
  ((if pickUp c then 1 # 2 else 0)
   - inject_Z (Z.of_nat (length (default [] (cand_route c)))))%Q.

(** The leg the robot plans for a parcel: to the parcel (a pick-up) if
    it is not where the robot is, to its address (a delivery) if it is. *)
Definition leg (here : value) (p : Parcel) : value * bool :=
  if decide (place p ≠ here) then (place p, true) else (address p, false).

(** [c] is the [i]th candidate, no candidate scores higher, and among
    those that score the same it is the first ([earliest]) or the last. *)
Definition selected_by (earliest : bool) (cands : list Candidate)
    (i : nat) (c : Candidate) : Prop :=
  cands !! i = Some c
  ∧ (∀ j c', cands !! j = Some c' → (score_of c' <= score_of c)%Q)
  ∧ (∀ j c', cands !! j = Some c' → (if earliest then j < i else i < j) →
       (score_of c' < score_of c)%Q).

(** The scored choice of the lazy robot with an empty memory: one
    candidate per parcel, carrying the route found for its leg; the
    selected candidate's route is followed. *)
Definition scored_greedy (earliest : bool) (graph : Graph)
    (state : VillageState) : Prop :=
  ∃ cands i c r,
    Forall2 (fun p c =>
               ∃ r, findRoute graph (robot_place state)
                      (fst (leg (robot_place state) p)) = Ret (Some r)
                    ∧ c = mkCandidate (Some r) (snd (leg (robot_place state) p)))
      (parcels state) cands
    ∧ selected_by earliest cands i c
    ∧ cand_route c = Some r
    ∧ lazyRobot graph state []
      = Ret (mkAction (default undefined (head r)) (drop 1 r)).

(** * More vocabulary: the rest of the program *)

(** ** The adjacency arrays, read off the edge list *)

(** What one descriptor, split into [pieces], adds to the array stored
    under the key [k]: its second end if [k] names the first, then its
    first end if [k] names the second. *)
Definition contributions (k : string) (pieces : list string) : list value :=
  (if decide (k = to_key (index pieces 0)) then [index pieces 1] else [])
  ++ (if decide (k = to_key (index pieces 1)) then [index pieces 0] else []).

(** The neighbours of [k] in the order of the edge list. *)
Definition neighbours_in (edges : list string) (k : string) : list value :=
  mjoin (contributions k <$> (split <$> edges)).

(** A name without a dash. *)
Fixpoint dash_free (s : string) : Prop :=
  match s with
  | EmptyString => True
  | String c s' => c ≠ "-"%char ∧ dash_free s'
  end.

(** The descriptor "a-b". *)
Definition descriptor (a b : string) : string := a +:+ "-" +:+ b.

(** ** Driving along a route *)

(** The moves of a route made one after the other, as the simulation
    loops do with the directions a robot takes from its memory. *)
Fixpoint drive (graph : Graph) (state : VillageState) (route : list value)
    : outcome VillageState :=
  match route with
  | [] => Ret state
  | direction :: route' =>
      state' ← move graph state direction; drive graph state' route'
  end.

(** ** Part 7: the route robot *)

(** The program reads one global itinerary, [mailRoute]; as with the
    graph, the robot is taken over an arbitrary one. *)
Section Route.

Variable mailRoute : list value.

(** [routeRobot(state, memory)]; the state is not looked at. *)
Definition routeRobot (state : VillageState) (memory : list value)
    : outcome (Action (list value)) :=
  let memory := if bool_decide (length memory = 0) then mailRoute else memory in
  Ret (mkAction (default undefined (head memory)) (drop 1 memory)).

End Route.

Definition mailRoute : list value :=
  [ str "Alice's House";
    str "Cabin";
    str "Alice's House";
    str "Bob's House";
    str "Town Hall";
    str "Daria's House";
    str "Ernie's House";
    str "Grete's House";
    str "Shop";
    str "Grete's House";
    str "Farm";
    str "Marketplace";
    str "Post Office" ].

(** The directions a robot gives when it is asked once at each of
    [states], its memory threaded from call to call. *)
Fixpoint ask {M : Type} (robot : VillageState → M → outcome (Action M))
    (states : list VillageState) (mem : M) : outcome (list value) :=
  match states with
  | [] => Ret []
  | state :: states' =>
      action ← robot state mem;
      directions ← ask robot states' (memory action);
      Ret (direction action :: directions)
  end.

(** What becomes of one parcel while the robot drives from [here] along
    [route]: the parcel as it then is, or nothing once it is delivered. *)
Fixpoint fate (here : value) (route : list value) (p : Parcel) : option Parcel :=
  match route with
  | [] => Some p
  | direction :: route' =>
      let p' := relocate here direction p in
      if decide (delivered p') then None else fate direction route' p'
  end.

(** A place of the village: a name that the road graph has as a key. *)
Definition village_place (v : value) : Prop :=
  ∃ s, v = str s ∧ is_Some (roadGraph !! s).

(** The first [n] directions of the route robot from the memory [mem]. *)
Fixpoint tour (itinerary : list value) (n : nat) (mem : list value) : list value :=
  match n with
  | O => []
  | S n' =>
      let m := if bool_decide (length mem = 0) then itinerary else mem in
      default undefined (head m) :: tour itinerary n' (drop 1 m)
  end.

(** A check that [l] is a walk from [a]. *)
Fixpoint walkb (graph : Graph) (a : value) (l : list value) : bool :=
  match l with
  | [] => true
  | b :: l' =>
      match graph !! to_key a with
      | Some places => bool_decide (b ∈ places) && walkb graph b l'
      | None => false
      end
  end.

(** The names of the eleven places of the village. *)
Definition village : list string :=
  [ "Alice's House"; "Bob's House"; "Cabin"; "Post Office"; "Town Hall";
    "Daria's House"; "Ernie's House"; "Grete's House"; "Farm"; "Shop";
    "Marketplace" ].

(** ** The goal-oriented robot's task *)

(** Between any two different registered places there is a route. *)
Definition routable (graph : Graph) : Prop :=
  ∀ a b, is_Some (graph !! to_key a) → is_Some (graph !! to_key b) → a ≠ b →
    ∃ l, leads graph a l b.

(** A task on the graph: the robot and the parcels are at registered
    places, the addresses are registered places, and no parcel is at its
    address. *)
Definition task_on (graph : Graph) (state : VillageState) : Prop :=
  is_Some (graph !! to_key (robot_place state))
  ∧ ∀ p, p ∈ parcels state →
      is_Some (graph !! to_key (place p))
      ∧ is_Some (graph !! to_key (address p))
      ∧ ¬ delivered p.

(** The goal-oriented robot finishes the tasks of at most [n] parcels,
    from any step count, within twice as many steps per parcel as the
    graph lists places. *)
Definition delivers_within (graph : Graph) (n : nat) : Prop :=
  ∀ ps here steps,
    length ps ≤ n →
    task_on graph (mkVillageState here ps) →
    ∃ k, k ≤ 2 * length (all_places graph) * length ps
      ∧ countSteps_from graph (S k) steps (mkVillageState here ps)
          (goalOrientedRobot graph) [] = Ret (steps + k).

(** Whether [findRoute] returns a route. *)
Definition finds_route (graph : Graph) (from to : value) : bool :=
  match findRoute graph from to with
  | Ret (Some _) => true
  | _ => false
  end.

(** ** The lazy robot's task *)

(** What a parcel still asks of the robot: one leg if it is where the
    robot is (a delivery), two if it is elsewhere (a pick-up first). *)
Definition load (here : value) (p : Parcel) : nat :=
  if decide (place p = here) then 1 else 2.

(** The legs the parcels ask for, all added up. *)
Fixpoint effort (here : value) (ps : list Parcel) : nat :=
  match ps with
  | [] => 0
  | p :: ps' => load here p + effort here ps'
  end.

(** * Properties *)

(** ** The scenarios of the program, by evaluation *)

Example findRoute_scenario :
  findRoute (buildGraph ["A-B"; "B-C"]) (str "A") (str "C")
  = Ret (Some [str "B"; str "C"]).
Proof. vm_compute. reflexivity. Qed.

Example move_scenario :
  move roadGraph
    (mkVillageState (str "Post Office")
       [mkParcel (str "Post Office") (str "Alice's House")])
    (str "Alice's House")
  = Ret (mkVillageState (str "Alice's House") []).
Proof. vm_compute. reflexivity. Qed.

Example lazy_scenario :
  lazyRobot roadGraph
    (mkVillageState (str "Post Office")
       [mkParcel (str "Alice's House") (str "Cabin");
        mkParcel (str "Marketplace") (str "Farm")]) []
  = Ret (mkAction (str "Marketplace") []).
Proof. vm_compute. reflexivity. Qed.

(** ** Facts about walks *)

Lemma walk_end_nil a : walk_end a [] = a.
Proof. reflexivity. Qed.

Lemma walk_end_snoc a l b : walk_end a (l ++ [b]) = b.
Proof. unfold walk_end. by rewrite last_snoc. Qed.

Lemma walk_end_cons a b l : walk_end a (b :: l) = walk_end b l.
Proof.
  unfold walk_end. destruct l as [|c l]; [done|].
  rewrite last_cons. by destruct (last (c :: l)) eqn:E.
Qed.

Lemma walk_snoc graph a l b :
  walk graph a (l ++ [b]) ↔ walk graph a l ∧ adjacent graph (walk_end a l) b.
Proof.
  revert a. induction l as [|c l IH]; intros a; simpl.
  - rewrite walk_end_nil. tauto.
  - rewrite IH, walk_end_cons. tauto.
Qed.

Lemma adjacent_all_places graph a b : adjacent graph a b → b ∈ all_places graph.
Proof.
  intros (places & Hk & Hb). unfold all_places.
  apply list_elem_of_join. exists places. split; [done|].
  apply list_elem_of_fmap. exists (to_key a, places). split; [done|].
  by apply elem_of_map_to_list.
Qed.

Lemma walk_end_all_places graph a l :
  walk graph a l → walk_end a l = a ∨ walk_end a l ∈ all_places graph.
Proof.
  destruct l as [|b l _] using rev_ind; [by left|].
  rewrite walk_snoc, walk_end_snoc. intros [_ H]. right.
  by eapply adjacent_all_places.
Qed.

Lemma leads_snoc graph from l to :
  leads graph from l to ↔
  ∃ l', l = l' ++ [to] ∧ walk graph from l' ∧ adjacent graph (walk_end from l') to.
Proof.
  unfold leads. split.
  - intros [Hw Hl]. destruct l as [|b l _] using rev_ind; [done|].
    rewrite last_snoc in Hl. injection Hl as ->.
    apply walk_snoc in Hw as [? ?]. by exists l.
  - intros (l' & -> & Hw & Ha). rewrite walk_snoc, last_snoc. done.
Qed.

(** ** The inner loop of [findRoute] *)

Lemma visited_spec (work : list WorkItem) (p : value) :
  existsb (fun w => bool_decide (at_ w = p)) work = true ↔ p ∈ at_ <$> work.
Proof.
  rewrite existsb_exists, list_elem_of_fmap. split.
  - intros (w & Hin & Hw). apply bool_decide_eq_true in Hw.
    exists w. split; [done|]. by apply list_elem_of_In.
  - intros (w & -> & Hin). exists w. split; [by apply list_elem_of_In|].
    by apply bool_decide_eq_true.
Qed.

Lemma scan_found to r0 places work found :
  scan to r0 places work = inl found →
  (found = r0 ++ [to]) ∧ to ∈ places.
Proof.
  revert work. induction places as [|p places IH]; intros work; simpl; [done|].
  destruct (decide (p = to)) as [->|Hne].
  - intros [= <-]. split; [done|]. apply list_elem_of_here.
  - destruct (existsb _ work); intros H; apply IH in H as [-> ?];
      (split; [done|]); by apply list_elem_of_further.
Qed.

(** When the inner loop ends without returning, the work list was only
    extended at its end, by unvisited neighbours, each with the route of
    the current item plus itself. *)
Lemma scan_extends to r0 places work work' :
  scan to r0 places work = inr work' →
  (to ∉ places) ∧
  ∃ new, work' = work ++ new ∧
    (∀ w, w ∈ new → at_ w ∈ places ∧ route w = r0 ++ [at_ w]) ∧
    (NoDup (at_ <$> work) → NoDup (at_ <$> work')) ∧
    (∀ p, p ∈ places → p ∈ at_ <$> work').
Proof.
  revert work. induction places as [|p places IH]; intros work; simpl.
  - intros [= <-]. split; [apply not_elem_of_nil|]. exists [].
    rewrite app_nil_r. split_and!; [done| |done|]; intros ? H; by apply elem_of_nil in H.
  - destruct (decide (p = to)) as [->|Hne]; [done|].
    destruct (existsb _ work) eqn:Hvis; intros H;
      apply IH in H as (Hto & new & -> & Hnew & Hdup & Hall).
    + split; [by apply not_elem_of_cons|]. exists new. split_and!; [done| |done|].
      * intros w Hw. destruct (Hnew w Hw). split; [|done].
        by apply list_elem_of_further.
      * intros q [->|Hq]%elem_of_cons; [|by apply Hall].
        rewrite fmap_app. apply elem_of_app. left. by apply visited_spec.
    + split; [by apply not_elem_of_cons|].
      exists (mkWork p (r0 ++ [p]) :: new).
      split_and!; [by rewrite <- app_assoc| | |].
      * intros w [->|Hw]%elem_of_cons; simpl; [split; [apply list_elem_of_here|done]|].
        destruct (Hnew w Hw). split; [|done]. by apply list_elem_of_further.
      * intros Hnd. apply Hdup.
        rewrite fmap_app. simpl. apply NoDup_app. split_and!; [done| |].
        -- intros q Hq ->%list_elem_of_singleton.
           apply visited_spec in Hq. congruence.
        -- apply NoDup_singleton.
      * intros q [->|Hq]%elem_of_cons; [|by apply Hall].
        rewrite !fmap_app. simpl. apply elem_of_app. left.
        apply elem_of_app. right. apply list_elem_of_here.
Qed.

(** ** The outer loop of [findRoute]: breadth-first order *)

Section Search.

Variable graph : Graph.
Variables from to : value.

Lemma search_inv_init : search_inv graph from to [mkWork from []] 0.
Proof.
  split.
  - done.
  - intros w ->%list_elem_of_singleton. done.
  - apply NoDup_singleton.
  - intros [|j] [|k] wj wk ?; simpl; intros; simplify_eq; done.
  - intros wi wk [= <-] ->%list_elem_of_singleton. simpl. lia.
  - intros j wj Hj. lia.
  - simpl. lia.
Qed.

(** The places the search can come to: the start and what the
    adjacency arrays list. *)
Lemma search_inv_place work i w :
  search_inv graph from to work i → w ∈ work →
  at_ w = from ∨ at_ w ∈ all_places graph.
Proof.
  intros Hinv Hw. destruct (inv_walk Hinv w Hw) as [Hwalk <-].
  by apply walk_end_all_places.
Qed.

(** The work list never outgrows the places of the graph. *)
Lemma search_inv_length work i :
  search_inv graph from to work i → length work ≤ S (length (all_places graph)).
Proof.
  intros Hinv.
  assert (at_ <$> work ⊆+ from :: all_places graph) as Hsub.
  { apply NoDup_submseteq; [by eapply inv_nodup|].
    intros p (w & -> & Hw)%list_elem_of_fmap.
    destruct (inv_walk Hinv w Hw) as [Hwalk <-].
    destruct (walk_end_all_places _ _ _ Hwalk) as [->|?].
    - apply list_elem_of_here.
    - by apply list_elem_of_further. }
  apply submseteq_length in Hsub. rewrite length_fmap in Hsub. done.
Qed.

(** One full pass of the inner loop that does not return keeps the
    invariant for the next index. *)
Lemma search_inv_step work i w places work' :
  search_inv graph from to work i →
  work !! i = Some w →
  graph !! to_key (at_ w) = Some places →
  scan to (route w) places work = inr work' →
  search_inv graph from to work' (S i).
Proof.
  intros Hinv Hi Hplaces Hscan.
  apply scan_extends in Hscan as (Hto & new & -> & Hnew & Hdup & Hall).
  assert (w ∈ work) as Hw by (by eapply list_elem_of_lookup_2).
  assert (∀ wk, wk ∈ work ++ new → length (route wk) ≤ S (length (route w)))
    as Hlen.
  { intros wk [Hwk|Hwk]%elem_of_app.
    - by eapply inv_front.
    - destruct (Hnew wk Hwk) as [_ ->]. rewrite length_app. simpl. lia. }
  split.
  - apply lookup_app_l_Some. by eapply inv_head.
  - intros wk [Hwk|Hwk]%elem_of_app; [by eapply inv_walk|].
    destruct (Hnew wk Hwk) as [Hin ->].
    destruct (inv_walk Hinv w Hw) as [Hwalk Hend].
    rewrite walk_snoc, walk_end_snoc, Hend. split; [|done]. split; [done|].
    by exists places.
  - apply Hdup. by eapply inv_nodup.
  - intros j k wj wk Hjk Hj Hk.
    apply lookup_app_Some in Hk as [Hk|[Hlk Hk]].
    + rewrite lookup_app_l in Hj by (apply lookup_lt_Some in Hk; lia).
      by eapply (inv_sorted Hinv j k).
    + apply list_elem_of_lookup_2 in Hk.
      destruct (Hnew wk Hk) as [_ ->]. rewrite length_app. simpl.
      apply list_elem_of_lookup_2, Hlen in Hj. lia.
  - intros wi wk Hwi Hwk. apply Hlen in Hwk.
    assert (length (route w) ≤ length (route wi)); [|lia].
    destruct (lookup_app_Some work new (S i) wi) as [[Hold|[Hge Hnw]] _]; [done| |].
    + by eapply (inv_sorted Hinv i (S i)); [lia| |].
    + apply list_elem_of_lookup_2 in Hnw.
      destruct (Hnew wi Hnw) as [_ ->]. rewrite length_app. simpl. lia.
  - intros j wj Hj Hwj.
    destruct (decide (j = i)) as [->|Hne].
    + rewrite lookup_app_l in Hwj by (by eapply lookup_lt_Some).
      assert (wj = w) as -> by congruence.
      exists places. split_and!; [done..|].
      intros p Hp. apply Hall, list_elem_of_fmap in Hp as (wk & -> & Hwk).
      exists wk. split_and!; [done..|]. by apply Hlen.
    + assert (j < i) as Hlt by lia.
      assert (j < length work) as Hjw.
      { pose proof (inv_bound Hinv). lia. }
      rewrite lookup_app_l in Hwj by done.
      destruct (inv_done Hinv j wj Hlt Hwj) as (pl & Hpl & Htopl & Hcl).
      exists pl. split_and!; [done..|].
      intros p Hp. destruct (Hcl p Hp) as (wk & Hwk & Hat & Hle).
      exists wk. split_and!; [|done..]. apply elem_of_app. by left.
  - rewrite length_app. apply lookup_lt_Some in Hi. lia.
Qed.

(** Every place that a walk of at most the current depth reaches is in
    the work list, with a route that is not longer than the walk. *)
Lemma search_inv_reach work i w l :
  search_inv graph from to work i →
  work !! i = Some w →
  walk graph from l →
  length l ≤ length (route w) →
  ∃ j wj, work !! j = Some wj ∧ at_ wj = walk_end from l ∧
          length (route wj) ≤ length l.
Proof.
  intros Hinv Hi. induction l as [|b l IH] using rev_ind; intros Hwalk Hlen.
  - exists 0, (mkWork from []). split_and!; [by eapply inv_head|done..].
  - rewrite length_app in Hlen. simpl in Hlen.
    apply walk_snoc in Hwalk as [Hwalk (places & Hplaces & Hb)].
    destruct IH as (j & wj & Hj & Hat & Hle); [done|lia|].
    assert (j < i) as Hlt.
    { destruct (decide (j < i)); [done|].
      assert (length (route w) ≤ length (route wj)); [|lia].
      eapply (inv_sorted Hinv i j); [lia|done..]. }
    destruct (inv_done Hinv j wj Hlt Hj) as (pl & Hpl & _ & Hcl).
    rewrite Hat, Hplaces in Hpl. injection Hpl as <-.
    destruct (Hcl b Hb) as (wk & Hwk & Hatk & Hlek).
    apply list_elem_of_lookup_1 in Hwk as [k Hk].
    exists k, wk. rewrite walk_end_snoc, length_app. simpl.
    split_and!; [done..|lia].
Qed.

(** The return inside the inner loop gives a shortest route. *)
Lemma search_inv_found work i w places found :
  search_inv graph from to work i →
  work !! i = Some w →
  graph !! to_key (at_ w) = Some places →
  scan to (route w) places work = inl found →
  shortest_route graph from found to.
Proof.
  intros Hinv Hi Hplaces [-> Hto]%scan_found.
  assert (w ∈ work) as Hw by (by eapply list_elem_of_lookup_2).
  destruct (inv_walk Hinv w Hw) as [Hwalk Hend].
  split.
  - apply leads_snoc. exists (route w). split_and!; [done..|].
    rewrite Hend. by exists places.
  - intros l (l' & -> & Hwalk' & (pl & Hpl & Htopl))%leads_snoc.
    rewrite !length_app. simpl.
    destruct (decide (length (route w) ≤ length l')); [lia|].
    destruct (search_inv_reach work i w l') as (j & wj & Hj & Hat & Hle);
      [done..|lia|].
    assert (j < i) as Hlt.
    { destruct (decide (j < i)); [done|].
      assert (length (route w) ≤ length (route wj)); [|lia].
      eapply (inv_sorted Hinv i j); [lia|done..]. }
    destruct (inv_done Hinv j wj Hlt Hj) as (pl' & Hpl' & Hnot & _).
    rewrite Hat, Hpl in Hpl'. by injection Hpl' as <-.
Qed.

(** When the loop runs off the end of the work list, every place that
    can be reached is in the list and none of them neighbours the
    target. *)
Lemma search_inv_exhausted work i l :
  search_inv graph from to work i →
  work !! i = None →
  ¬ leads graph from l to.
Proof.
  intros Hinv Hi.
  assert (∀ l', walk graph from l' → ∃ j wj, work !! j = Some wj ∧
            at_ wj = walk_end from l') as Hreach.
  { induction l' as [|b l' IH] using rev_ind; intros Hwalk.
    - exists 0, (mkWork from []). split; [by eapply inv_head|done].
    - apply walk_snoc in Hwalk as [Hwalk (places & Hplaces & Hb)].
      destruct (IH Hwalk) as (j & wj & Hj & Hat).
      assert (j < i) as Hlt.
      { apply lookup_ge_None in Hi. apply lookup_lt_Some in Hj. lia. }
      destruct (inv_done Hinv j wj Hlt Hj) as (pl & Hpl & _ & Hcl).
      rewrite Hat, Hplaces in Hpl. injection Hpl as <-.
      destruct (Hcl b Hb) as (wk & Hwk & Hatk & _).
      apply list_elem_of_lookup_1 in Hwk as [k Hk].
      exists k, wk. by rewrite walk_end_snoc. }
  intros (l' & -> & Hwalk & (pl & Hpl & Htopl))%leads_snoc.
  destruct (Hreach l' Hwalk) as (j & wj & Hj & Hat).
  assert (j < i) as Hlt.
  { apply lookup_ge_None in Hi. apply lookup_lt_Some in Hj. lia. }
  destruct (inv_done Hinv j wj Hlt Hj) as (pl' & Hpl' & Hnot & _).
  rewrite Hat, Hpl in Hpl'. by injection Hpl' as <-.
Qed.

(** The loop ends within the step budget: it returns a result that
    meets [route_spec], or it throws at a place that has no adjacency
    array. *)
Lemma findRoute_loop_spec fuel work i :
  search_inv graph from to work i →
  S (S (length (all_places graph))) ≤ fuel + i →
  (∃ res, findRoute_loop fuel graph to work i = Ret res ∧
          route_spec graph from to res)
  ∨ (findRoute_loop fuel graph to work i = Exn (TypeError NotIterable) ∧
     ∃ p, (p = from ∨ p ∈ all_places graph) ∧ graph !! to_key p = None).
Proof.
  revert work i. induction fuel as [|fuel IH]; intros work i Hinv Hfuel.
  - pose proof (inv_bound Hinv). pose proof (search_inv_length _ _ Hinv).
    simpl in Hfuel. lia.
  - simpl. destruct (work !! i) as [w|] eqn:Hi.
    + assert (w ∈ work) as Hw by (by eapply list_elem_of_lookup_2).
      destruct (graph !! to_key (at_ w)) as [places|] eqn:Hplaces.
      * destruct (scan to (route w) places work) as [found|work'] eqn:Hscan.
        -- left. exists (Some found). split; [done|]. by eapply search_inv_found.
        -- apply IH; [by eapply search_inv_step|lia].
      * right. split; [done|]. exists (at_ w). split; [|done].
        by eapply search_inv_place.
    + left. exists None. split; [done|]. intros l. by eapply search_inv_exhausted.
Qed.

Lemma findRoute_total :
  (∃ res, findRoute graph from to = Ret res ∧ route_spec graph from to res)
  ∨ (findRoute graph from to = Exn (TypeError NotIterable) ∧
     ∃ p, (p = from ∨ p ∈ all_places graph) ∧ graph !! to_key p = None).
Proof.
  apply findRoute_loop_spec; [apply search_inv_init|].
  unfold findRoute_fuel. lia.
Qed.

(** On a closed graph, from a registered place, it always returns. *)
Lemma findRoute_spec :
  closed graph →
  is_Some (graph !! to_key from) →
  ∃ res, findRoute graph from to = Ret res ∧ route_spec graph from to res.
Proof.
  intros Hclosed Hfrom.
  destruct findRoute_total as [?|[_ (p & [->|Hp] & Hnone)]]; [done|..].
  - rewrite Hnone in Hfrom. by destruct Hfrom.
  - apply list_elem_of_join in Hp as (places & Hp & Hpl).
    apply list_elem_of_fmap in Hpl as ([k pl] & -> & Hk%elem_of_map_to_list).
    destruct (Hclosed k pl p Hk Hp) as [? ?]. congruence.
Qed.

(** From a place without an adjacency array, the first pass throws. *)
Lemma findRoute_unregistered :
  graph !! to_key from = None →
  findRoute graph from to = Exn (TypeError NotIterable).
Proof. intros Hnone. unfold findRoute. simpl. by rewrite Hnone. Qed.

(** The result does not depend on the budget: any larger one gives the
    same outcome. *)
Lemma findRoute_loop_mono fuel fuel' work i res :
  fuel ≤ fuel' →
  findRoute_loop fuel graph to work i = Ret res →
  findRoute_loop fuel' graph to work i = Ret res.
Proof.
  revert fuel' work i. induction fuel as [|fuel IH]; intros fuel' work i Hle; [done|].
  destruct fuel' as [|fuel']; [lia|]. simpl.
  destruct (work !! i) as [w|]; [|done].
  destruct (graph !! to_key (at_ w)) as [places|]; [|done].
  destruct (scan to (route w) places work); [done|].
  apply IH. lia.
Qed.

End Search.

(** ** What [buildGraph] builds *)

Lemma lookup_addEdge graph a b k :
  addEdge graph a b !! k =
    if decide (k = to_key a) then Some (default [] (graph !! to_key a) ++ [b])
    else graph !! k.
Proof.
  unfold addEdge. destruct (graph !! to_key a) as [dests|] eqn:Ha;
    rewrite lookup_insert; repeat case_decide; simplify_eq; done.
Qed.

Lemma listed_addEdge graph a b k p :
  listed (addEdge graph a b) k p ↔ listed graph k p ∨ (k = to_key a ∧ p = b).
Proof.
  unfold listed. rewrite lookup_addEdge. case_decide as Hk.
  - subst k. split.
    + intros (places & [= <-] & [Hp|Hp]%elem_of_app).
      * left. destruct (graph !! to_key a) as [dests|]; [by exists dests|].
        by apply elem_of_nil in Hp.
      * right. by apply list_elem_of_singleton in Hp.
    + intros [(places & Hpl & Hp)|[_ ->]]; eexists; (split; [done|]).
      * rewrite Hpl. apply elem_of_app. by left.
      * apply elem_of_app. right. apply list_elem_of_here.
  - split; [by left|]. by intros [?|[? _]].
Qed.

Lemma listed_add_road graph pieces k p :
  listed (add_road graph pieces) k p ↔
    listed graph k p
    ∨ (k = to_key (index pieces 0) ∧ p = index pieces 1)
    ∨ (k = to_key (index pieces 1) ∧ p = index pieces 0).
Proof. unfold add_road. rewrite !listed_addEdge. tauto. Qed.

Lemma registered_addEdge graph a b k :
  is_Some (addEdge graph a b !! k) ↔ is_Some (graph !! k) ∨ k = to_key a.
Proof.
  rewrite lookup_addEdge. case_decide.
  - split; [by right|by eexists].
  - split; [by left|]. by intros [?|?].
Qed.

(** Induction over the roads in the order [buildGraph] adds them. *)
Lemma buildGraph_ind (P : Graph → Prop) (Q : string → Prop) edges :
  P ∅ →
  (∀ graph r, Q r → P graph → P (add_road graph (split r))) →
  Forall Q edges →
  P (buildGraph edges).
Proof.
  intros Hempty Hstep. unfold buildGraph. generalize (∅ : Graph) Hempty.
  induction edges as [|r edges IH]; intros graph Hg Hall; [done|].
  apply Forall_cons in Hall as [Hr Hall]. simpl. apply IH; [|done].
  by apply (Hstep graph r).
Qed.

Lemma buildGraph_mutual edges : mutual (buildGraph edges).
Proof.
  apply (buildGraph_ind mutual (fun _ => True)).
  - intros k p (places & Hk & _). by rewrite lookup_empty in Hk.
  - intros graph r _ IH k p. rewrite listed_add_road.
    intros [Hold|[[-> ->]|[-> ->]]].
    + destruct (IH k p Hold) as (q & Hq & Hkq). exists q.
      rewrite listed_add_road. tauto.
    + exists (index (split r) 0). rewrite listed_add_road. tauto.
    + exists (index (split r) 1). rewrite listed_add_road. tauto.
  - by apply Forall_true.
Qed.

Lemma mutual_closed graph : mutual graph → closed graph.
Proof.
  intros Hm k places p Hk Hp.
  destruct (Hm k p) as (q & (places' & Hpl & _) & _); [by exists places|].
  by exists places'.
Qed.

Lemma buildGraph_closed edges : closed (buildGraph edges).
Proof. apply mutual_closed, buildGraph_mutual. Qed.

Lemma reachable_leads graph from to :
  from ≠ to → reachable graph from to ↔ ∃ l, leads graph from l to.
Proof.
  intros Hne. split.
  - intros (l & Hwalk & Hend). exists l. split; [done|].
    unfold walk_end in Hend. destruct (last l); simpl in Hend; congruence.
  - intros (l & Hwalk & Hlast). exists l. split; [done|].
    unfold walk_end. by rewrite Hlast.
Qed.

Lemma registered_add_road graph pieces k :
  is_Some (add_road graph pieces !! k) ↔
    is_Some (graph !! k)
    ∨ k = to_key (index pieces 0) ∨ k = to_key (index pieces 1).
Proof. unfold add_road. rewrite !registered_addEdge. tauto. Qed.

(** The keys of the built graph are the ends of the roads. *)
Lemma buildGraph_registered edges p :
  is_Some (buildGraph edges !! to_key p) ↔ registered_in edges p.
Proof.
  unfold buildGraph, registered_in.
  assert (∀ graph : Graph,
    is_Some (fold_left add_road (map split edges) graph !! to_key p) ↔
    is_Some (graph !! to_key p) ∨ ∃ r, r ∈ edges ∧ registers r (to_key p)) as H.
  { induction edges as [|r edges IH]; intros graph; simpl.
    - split; [by left|]. intros [?|(r & Hr & _)]; [done|].
      by apply elem_of_nil in Hr.
    - rewrite IH, registered_add_road. unfold registers. split.
      + intros [[?|?]|(r' & Hr' & ?)]; [by left| |].
        * right. exists r. split; [apply list_elem_of_here|done].
        * right. exists r'. split; [by apply list_elem_of_further|done].
      + intros [?|(r' & [->|Hr']%elem_of_cons & ?)].
        * left. by left.
        * left. by right.
        * right. by exists r'. }
  rewrite H, lookup_empty. split; [|by right].
  intros [[? ?]|?]; done.
Qed.

(** Every adjacency array of the built graph has an element. *)
Lemma buildGraph_nonempty edges k places :
  buildGraph edges !! k = Some places → places ≠ [].
Proof.
  revert k places.
  apply (buildGraph_ind (fun graph => ∀ k places,
           graph !! k = Some places → places ≠ []) (fun _ => True)).
  - intros k places. by rewrite lookup_empty.
  - intros graph r _ IH k places. unfold add_road.
    rewrite !lookup_addEdge.
    repeat case_decide; intros Hk; simplify_eq;
      try (intros [? ?]%app_eq_nil; done).
    by eapply IH.
  - by apply Forall_true.
Qed.

(** With descriptors that all have a dash, only strings are listed. *)
Lemma buildGraph_strings edges k p :
  Forall well_formed edges →
  listed (buildGraph edges) k p → ∃ s, p = str s.
Proof.
  intros Hwf. revert k p.
  apply (buildGraph_ind (fun graph => ∀ k p, listed graph k p → ∃ s, p = str s)
           well_formed); [| |done].
  - intros k p (places & Hk & _). by rewrite lookup_empty in Hk.
  - intros graph r Hr IH k p. rewrite listed_add_road.
    unfold well_formed in Hr. unfold index.
    destruct (split r) as [|a [|b pieces]]; simpl in *; [lia..|].
    intros [Hold|[[_ ->]|[_ ->]]]; [by eapply IH|by eexists..].
Qed.

(** So a registered place of such a graph has a round trip of two roads. *)
Lemma buildGraph_round_trip edges a :
  Forall well_formed edges →
  is_Some (buildGraph edges !! a) →
  ∃ p, leads (buildGraph edges) (str a) [p; str a] (str a).
Proof.
  intros Hwf [places Hplaces].
  destruct places as [|p places]; [by apply buildGraph_nonempty in Hplaces|].
  assert (listed (buildGraph edges) a p) as Hp.
  { exists (p :: places). split; [done|]. apply list_elem_of_here. }
  destruct (buildGraph_mutual edges a p Hp) as (q & Hq & Hkey).
  destruct (buildGraph_strings edges _ q Hwf Hq) as [s ->].
  simpl in Hkey. subst s. exists p. split; [|done]. simpl. done.
Qed.

(** ** Route search on built graphs *)

(** C1.  On the graph built from any edge list, for places [from ≠ to]
    with [to] reachable from [from], [findRoute] returns a route from
    [from] to [to] that no route is shorter than: its length is the
    shortest-path edge count.  On the graph of ["A-B"; "B-C"] the route
    from A to C is [B; C]. *)
Theorem findRoute_shortest :
  (∀ (edges : list string) (from to : value),
     from ≠ to →
     reachable (buildGraph edges) from to →
     ∃ r, findRoute (buildGraph edges) from to = Ret (Some r) ∧
          shortest_route (buildGraph edges) from r to)
  ∧ findRoute (buildGraph ["A-B"; "B-C"]) (str "A") (str "C")
    = Ret (Some [str "B"; str "C"]).
Proof.
  split; [|by vm_compute].
  intros edges from to Hne [l Hl]%reachable_leads; [|done].
  assert (is_Some (buildGraph edges !! to_key from)) as Hfrom.
  { destruct Hl as [Hwalk Hlast]. destruct l as [|b l]; [done|].
    destruct Hwalk as [(places & Hpl & _) _]. by exists places. }
  destruct (findRoute_spec (buildGraph edges) from to
              (buildGraph_closed edges) Hfrom) as ([r|] & Hres & Hspec).
  - by exists r.
  - by destruct (Hspec l).
Qed.

Lemma findRoute_shortest_witness :
  ∃ r, findRoute roadGraph (str "Post Office") (str "Farm") = Ret (Some r) ∧
       shortest_route roadGraph (str "Post Office") r (str "Farm").
Proof.
  apply (proj1 findRoute_shortest roads); [done|].
  exists [str "Marketplace"; str "Farm"]. split; [|done].
  simpl. split_and!; [| |done]; eexists; (split; [by vm_compute|]);
    repeat first [apply list_elem_of_here | apply list_elem_of_further].
Defined.

(** C6, as the code has it.  On the graph built from any edge list,
    for a registered place [a], [findRoute(graph, a, a)] never returns
    the empty route: it returns a shortest route of at least one road
    from [a] back to [a] when there is one, and [undefined] otherwise.
    When every descriptor has a dash there is one, of one or two
    roads. *)
Theorem findRoute_same_place (edges : list string) (a : string) :
  is_Some (buildGraph edges !! a) →
  ∃ res, findRoute (buildGraph edges) (str a) (str a) = Ret res
    ∧ route_spec (buildGraph edges) (str a) (str a) res
    ∧ res ≠ Some []
    ∧ (Forall well_formed edges → ∃ r, res = Some r ∧ 1 ≤ length r ≤ 2).
Proof.
  intros Ha.
  destruct (findRoute_spec (buildGraph edges) (str a) (str a)
              (buildGraph_closed edges) Ha) as (res & Hres & Hspec).
  exists res. split_and!; [done..| |].
  - intros ->. by destruct Hspec as [[_ Hlast] _].
  - intros Hwf. destruct (buildGraph_round_trip edges a Hwf Ha) as [p Hp].
    destruct res as [r|]; [|by destruct (Hspec _ Hp)].
    exists r. split; [done|]. destruct Hspec as [[_ Hlast] Hmin]. split.
    + destruct r; [done|simpl; lia].
    + apply (Hmin _ Hp).
Qed.

Lemma findRoute_same_place_witness :
  ∃ res, findRoute (buildGraph ["A-B"]) (str "A") (str "A") = Ret res
    ∧ route_spec (buildGraph ["A-B"]) (str "A") (str "A") res
    ∧ res ≠ Some []
    ∧ (Forall well_formed ["A-B"] → ∃ r, res = Some r ∧ 1 ≤ length r ≤ 2).
Proof.
  apply (findRoute_same_place ["A-B"] "A").
  vm_compute. by eexists.
Defined.

(** C6, as stated, fails: for the registered place A of the graph of
    ["A-B"], the route returned from A to A is [B; A], not the empty
    route. *)
Lemma same_place_route_not_empty :
  is_Some (buildGraph ["A-B"] !! "A") ∧
  findRoute (buildGraph ["A-B"]) (str "A") (str "A")
    = Ret (Some [str "B"; str "A"]) ∧
  findRoute (buildGraph ["A-B"]) (str "A") (str "A") ≠ Ret (Some []).
Proof. split_and!; [vm_compute; by eexists|by vm_compute..]. Qed.

(** C8, as the code has it.  On the graph built from any edge list, for
    places [from ≠ to] with [to] not reachable from [from]: when [from] is
    registered, the work list is exhausted and [findRoute] returns
    [undefined], without raising an error; when [from] is not registered,
    the first neighbour lookup throws a [TypeError]. *)
Theorem findRoute_unreachable (edges : list string) (from to : value) :
  from ≠ to →
  ¬ reachable (buildGraph edges) from to →
  (is_Some (buildGraph edges !! to_key from) →
     findRoute (buildGraph edges) from to = Ret None)
  ∧ (buildGraph edges !! to_key from = None →
     findRoute (buildGraph edges) from to = Exn (TypeError NotIterable)).
Proof.
  intros Hne Hun. split; [|apply findRoute_unregistered].
  intros Hfrom.
  destruct (findRoute_spec (buildGraph edges) from to
              (buildGraph_closed edges) Hfrom) as ([r|] & Hres & Hspec); [|done].
  destruct Hun. apply reachable_leads; [done|]. exists r. apply Hspec.
Qed.

Lemma unreachable_by_search graph from to :
  closed graph →
  is_Some (graph !! to_key from) →
  from ≠ to →
  findRoute graph from to = Ret None →
  ¬ reachable graph from to.
Proof.
  intros Hclosed Hfrom Hne Hnone [l Hl]%reachable_leads; [|done].
  destruct (findRoute_spec graph from to Hclosed Hfrom) as (res & Hres & Hspec).
  rewrite Hnone in Hres. injection Hres as <-. by apply (Hspec l).
Qed.

(** A walk never leaves a set of places that no road leaves. *)
Lemma walk_stays (P : value → Prop) graph a l :
  (∀ x y, P x → adjacent graph x y → P y) →
  P a → walk graph a l → P (walk_end a l).
Proof.
  intros Hstep. revert a. induction l as [|b l IH]; intros a Ha; [done|].
  intros [Hab Hwalk]. rewrite walk_end_cons. apply IH; [|done].
  by apply (Hstep a).
Qed.

(** In the graph of ["A-B"; "C-D"] the roads from A lead to A and B
    only. *)
Example two_islands :
  ¬ reachable (buildGraph ["A-B"; "C-D"]) (str "A") (str "C").
Proof.
  intros (l & Hwalk & Hend).
  apply (walk_stays (fun v => v = str "A" ∨ v = str "B")) in Hwalk.
  - rewrite Hend in Hwalk. by destruct Hwalk.
  - intros x y [-> | ->] (places & Hplaces & Hy); vm_compute in Hplaces;
      injection Hplaces as <-; apply list_elem_of_singleton in Hy; auto.
  - by left.
Qed.

Lemma findRoute_unreachable_witness :
  findRoute (buildGraph ["A-B"; "C-D"]) (str "A") (str "C") = Ret None.
Proof.
  apply (findRoute_unreachable ["A-B"; "C-D"] (str "A") (str "C")).
  - done.
  - apply two_islands.
  - vm_compute. by eexists.
Defined.

(** C8, as stated, fails: C is not reachable from A in the graph of
    ["A-B"; "C-D"], and the search from A to C raises no error: it
    returns [undefined]. *)
Lemma unreachable_raises_no_error :
  str "A" ≠ str "C" ∧
  ¬ reachable (buildGraph ["A-B"; "C-D"]) (str "A") (str "C") ∧
  findRoute (buildGraph ["A-B"; "C-D"]) (str "A") (str "C") = Ret None ∧
  ∀ e, findRoute (buildGraph ["A-B"; "C-D"]) (str "A") (str "C") ≠ Exn e.
Proof.
  assert (findRoute (buildGraph ["A-B"; "C-D"]) (str "A") (str "C") = Ret None)
    as Hnone by (by vm_compute).
  split_and!; [done|apply two_islands|done|by rewrite Hnone].
Qed.

(** ** Moves *)

Lemma move_unfold graph state dest places :
  graph !! to_key (robot_place state) = Some places →
  move graph state dest =
    if bool_decide (dest ∈ places)
    then Ret (mkVillageState dest
                (filter (fun p => ¬ delivered p)
                   (relocate (robot_place state) dest <$> parcels state)))
    else Ret state.
Proof.
  intros Hplaces. unfold move. rewrite Hplaces.
  destruct (bool_decide (dest ∈ places)); simpl; [|done].
  do 2 f_equal. f_equal. apply list_fmap_ext. intros _ p _.
  unfold relocate. by repeat case_decide.
Qed.

(** A move to a neighbour, in the words of the specification. *)
Lemma move_to_neighbour graph state dest :
  adjacent graph (robot_place state) dest →
  move graph state dest =
    Ret (mkVillageState dest
           (filter (fun p => ¬ delivered p)
              (relocate (robot_place state) dest <$> parcels state))).
Proof.
  intros (places & Hplaces & Hdest).
  rewrite (move_unfold _ _ _ places Hplaces). by rewrite bool_decide_eq_true_2.
Qed.

(** Dropping the arrived parcels after relocating, or relocating those
    that will not have arrived: the same parcels in the same order. *)
Lemma filter_relocate here dest (ps : list Parcel) :
  filter (fun p => ¬ delivered p) (relocate here dest <$> ps)
  = relocate here dest <$> filter (fun p => ¬ delivered (relocate here dest p)) ps.
Proof.
  induction ps as [|p ps IH]; [done|].
  rewrite fmap_cons, !filter_cons.
  case_decide; [rewrite fmap_cons|]; by rewrite IH.
Qed.

(** A move from a registered place always returns a state. *)
Lemma move_returns graph state dest :
  is_Some (graph !! to_key (robot_place state)) →
  ∃ state', move graph state dest = Ret state'.
Proof.
  intros [places Hplaces]. rewrite (move_unfold _ _ _ places Hplaces).
  case_bool_decide; by eexists.
Qed.

(** After a move to an adjacent place no parcel is at its address,
    whatever the state was. *)
Lemma neighbour_drops_delivered graph state dest state' :
  adjacent graph (robot_place state) dest →
  move graph state dest = Ret state' →
  undelivered state'.
Proof.
  intros Hadj. rewrite (move_to_neighbour graph state dest Hadj).
  intros [= <-] p. simpl. by intros [? _]%list_elem_of_filter.
Qed.

(** C5.  A state of the world holds parcels that are not at their
    addresses (the invariant of a parcel in the data model).  For every
    such state and every destination, no parcel of the state that the
    move returns is at its own address: a move to an adjacent place
    drops the parcels that arrive with it, and any other move returns
    the state as it was.  From a registered place the move does return a
    state.  (After a move to an adjacent place the same holds whatever
    the parcels of the state were: the second case of the hypothesis.) *)
Theorem move_undelivered (graph : Graph) (state : VillageState) (dest : value) :
  undelivered state ∨ adjacent graph (robot_place state) dest →
  (∀ state', move graph state dest = Ret state' → undelivered state')
  ∧ (is_Some (graph !! to_key (robot_place state)) →
     ∃ state', move graph state dest = Ret state' ∧ undelivered state').
Proof.
  intros Hstate.
  assert (∀ state', move graph state dest = Ret state' → undelivered state') as H.
  { intros state' Hmove.
    destruct (graph !! to_key (robot_place state)) as [places|] eqn:Hplaces;
      [|unfold move in Hmove; by rewrite Hplaces in Hmove].
    destruct (decide (dest ∈ places)) as [Hin|Hout].
    - eapply neighbour_drops_delivered; [by exists places|done].
    - destruct Hstate as [Hstate|(places' & Hplaces' & Hin)].
      + rewrite (move_unfold _ _ _ places Hplaces) in Hmove.
        rewrite bool_decide_eq_false_2 in Hmove by done. by injection Hmove as <-.
      + congruence. }
  split; [done|]. intros Hreg.
  destruct (move_returns graph state dest Hreg) as [state' Hmove].
  exists state'. split; [done|]. by apply H.
Qed.

Lemma move_undelivered_witness :
  move roadGraph
    (mkVillageState (str "Post Office")
       [mkParcel (str "Post Office") (str "Marketplace");
        mkParcel (str "Post Office") (str "Farm");
        mkParcel (str "Cabin") (str "Farm")])
    (str "Marketplace")
  = Ret (mkVillageState (str "Marketplace")
           [mkParcel (str "Marketplace") (str "Farm");
            mkParcel (str "Cabin") (str "Farm")])
  ∧ undelivered
      (mkVillageState (str "Marketplace")
         [mkParcel (str "Marketplace") (str "Farm");
          mkParcel (str "Cabin") (str "Farm")]).
Proof.
  split; [by vm_compute|].
  apply (move_undelivered roadGraph
           (mkVillageState (str "Post Office")
              [mkParcel (str "Post Office") (str "Marketplace");
               mkParcel (str "Post Office") (str "Farm");
               mkParcel (str "Cabin") (str "Farm")])
           (str "Marketplace")).
  - left. intros p Hp. simpl in Hp. unfold delivered.
    repeat (apply elem_of_cons in Hp as [->|Hp]; [done|]).
    by apply elem_of_nil in Hp.
  - by vm_compute.
Defined.

(** The order of the parcels through a move. *)
Lemma move_order graph state state' dest :
  move graph state dest = Ret state' →
  (∃ kept, kept `sublist_of` parcels state ∧
     (parcels state' = kept ∨
      parcels state' = relocate (robot_place state) dest <$> kept))
  ∧ (∀ p rest, parcels state = p :: rest →
       head (parcels state') = Some p
       ∨ head (parcels state') = Some (relocate (robot_place state) dest p)
       ∨ delivered (relocate (robot_place state) dest p)).
Proof.
  intros Hmove.
  destruct (graph !! to_key (robot_place state)) as [places|] eqn:Hplaces;
    [|unfold move in Hmove; by rewrite Hplaces in Hmove].
  destruct (decide (dest ∈ places)) as [Hin|Hout].
  - rewrite (move_to_neighbour graph state dest) in Hmove by (by exists places).
    injection Hmove as <-. simpl. split.
    + exists (filter (fun p => ¬ delivered (relocate (robot_place state) dest p))
                (parcels state)).
      split; [apply sublist_filter|]. right. apply filter_relocate.
    + intros p rest ->. rewrite fmap_cons, filter_cons.
      destruct (decide (¬ delivered (relocate (robot_place state) dest p)))
        as [Hd|Hd]; [right; by left|].
      right. right. by apply dec_stable.
  - rewrite (move_unfold _ _ _ places Hplaces) in Hmove.
    rewrite bool_decide_eq_false_2 in Hmove by done. injection Hmove as <-.
    split.
    + exists (parcels state). split; [done|by left].
    + intros p rest ->. by left.
Qed.

(** C9.  From a registered place a move returns a state, and the
    parcels of that state are a subsequence of the parcels of the old
    state, in the old order, each one either as it was or relocated to
    the destination; so if the first parcel is not dropped, it is the
    first parcel of the new state too. *)
Theorem move_keeps_order (graph : Graph) (state : VillageState) (dest : value) :
  is_Some (graph !! to_key (robot_place state)) →
  ∃ state', move graph state dest = Ret state'
    ∧ (∃ kept, kept `sublist_of` parcels state ∧
         (parcels state' = kept ∨
          parcels state' = relocate (robot_place state) dest <$> kept))
    ∧ (∀ p rest, parcels state = p :: rest →
         head (parcels state') = Some p
         ∨ head (parcels state') = Some (relocate (robot_place state) dest p)
         ∨ delivered (relocate (robot_place state) dest p)).
Proof.
  intros Hreg. destruct (move_returns graph state dest Hreg) as [state' Hmove].
  exists state'. split; [done|]. by apply (move_order graph).
Qed.

Lemma move_keeps_order_witness :
  ∃ state',
    move roadGraph
      (mkVillageState (str "Post Office")
         [mkParcel (str "Post Office") (str "Marketplace");
          mkParcel (str "Cabin") (str "Farm");
          mkParcel (str "Post Office") (str "Shop")])
      (str "Marketplace") = Ret state'
    ∧ (∃ kept,
         kept `sublist_of`
           [mkParcel (str "Post Office") (str "Marketplace");
            mkParcel (str "Cabin") (str "Farm");
            mkParcel (str "Post Office") (str "Shop")] ∧
         (parcels state' = kept ∨
          parcels state'
          = relocate (str "Post Office") (str "Marketplace") <$> kept))
    ∧ (∀ p rest,
         [mkParcel (str "Post Office") (str "Marketplace");
          mkParcel (str "Cabin") (str "Farm");
          mkParcel (str "Post Office") (str "Shop")] = p :: rest →
         head (parcels state') = Some p
         ∨ head (parcels state')
           = Some (relocate (str "Post Office") (str "Marketplace") p)
         ∨ delivered (relocate (str "Post Office") (str "Marketplace") p)).
Proof.
  apply (move_keeps_order roadGraph
           (mkVillageState (str "Post Office")
              [mkParcel (str "Post Office") (str "Marketplace");
               mkParcel (str "Cabin") (str "Farm");
               mkParcel (str "Post Office") (str "Shop")])
           (str "Marketplace")).
  vm_compute. by eexists.
Defined.

(** ** Moves on references *)

(** What a reference stands for does not change when the store grows. *)
Lemma read_parcel_prefix heap heap' r p :
  heap `prefix_of` heap' →
  read_parcel heap r = Some p → read_parcel heap' r = Some p.
Proof.
  intros Hpre. unfold read_parcel.
  destruct (heap !! r) as [o|] eqn:Hr; [|done].
  by rewrite (prefix_lookup_Some _ _ _ _ Hr Hpre).
Qed.

Lemma read_all_prefix heap heap' elems ps :
  heap `prefix_of` heap' →
  Forall2 (fun r p => read_parcel heap r = Some p) elems ps →
  Forall2 (fun r p => read_parcel heap' r = Some p) elems ps.
Proof.
  intros Hpre Hall. eapply Forall2_impl; [done|].
  intros r p. by apply read_parcel_prefix.
Qed.

Lemma read_parcels_prefix heap heap' r ps :
  heap `prefix_of` heap' →
  read_parcels heap r = Some ps → read_parcels heap' r = Some ps.
Proof.
  intros Hpre. unfold read_parcels.
  destruct (heap !! r) as [o|] eqn:Hr; [|done].
  rewrite (prefix_lookup_Some _ _ _ _ Hr Hpre).
  destruct o; try done. rewrite !mapM_Some. by apply read_all_prefix.
Qed.

Lemma read_state_prefix heap heap' r state :
  heap `prefix_of` heap' →
  read_state heap r = Some state → read_state heap' r = Some state.
Proof.
  intros Hpre. unfold read_state.
  destruct (heap !! r) as [o|] eqn:Hr; [|done].
  rewrite (prefix_lookup_Some _ _ _ _ Hr Hpre).
  destruct o as [| |pl parr]; try done.
  destruct (read_parcels heap parr) as [ps|] eqn:Hps; [|done].
  by rewrite (read_parcels_prefix _ _ _ _ Hpre Hps).
Qed.

Lemma map_parcels_spec heap here dest elems ps :
  Forall2 (fun r p => read_parcel heap r = Some p) elems ps →
  ∃ heap1 mapped,
    map_parcels heap here dest elems = Ret (heap1, mapped) ∧
    heap `prefix_of` heap1 ∧
    Forall2 (fun r p => read_parcel heap1 r = Some p) mapped
      (map (fun p => if decide (place p ≠ here) then p
                     else mkParcel dest (address p)) ps).
Proof.
  revert heap ps. induction elems as [|r elems IH]; intros heap ps Hall.
  - apply Forall2_nil_inv_l in Hall as ->. exists heap, []. by split_and!.
  - apply Forall2_cons_inv_l in Hall as (p & ps' & Hp & Hall & ->).
    simpl. unfold deref_parcel. rewrite Hp. simpl.
    destruct (decide (place p ≠ here)) as [Hne|Heq].
    + destruct (IH heap ps' Hall) as (heap2 & rs & -> & Hpre & Hrs). simpl.
      exists heap2, (r :: rs). split_and!; [done..|].
      apply Forall2_cons. split; [|done]. by eapply read_parcel_prefix.
    + set (heap1 := heap ++ [ParcelObject dest (address p)]).
      assert (heap `prefix_of` heap1) as Hpre1 by (by apply prefix_app_r).
      destruct (IH heap1 ps' (read_all_prefix _ _ _ _ Hpre1 Hall))
        as (heap2 & rs & -> & Hpre & Hrs). simpl.
      exists heap2, (length heap :: rs). split_and!; [done|by etrans|].
      apply Forall2_cons. split; [|done].
      apply (read_parcel_prefix heap1); [done|].
      unfold read_parcel, heap1. by rewrite list_lookup_middle.
Qed.

Lemma filter_parcels_spec heap elems ps :
  Forall2 (fun r p => read_parcel heap r = Some p) elems ps →
  ∃ kept,
    filter_parcels heap elems = Ret kept ∧
    Forall2 (fun r p => read_parcel heap r = Some p) kept
      (filter (fun p => place p ≠ address p) ps).
Proof.
  induction 1 as [|r p elems ps Hp Hall (kept & IH & Hkept)].
  - by exists [].
  - simpl. unfold deref_parcel. rewrite Hp. simpl. rewrite IH. simpl.
    rewrite filter_cons. eexists. split; [done|].
    destruct (decide (place p ≠ address p)); [|done].
    by apply Forall2_cons.
Qed.

(** [move_ref] computes [move]: on a store where [this] stands for
    [state], it returns a reference that stands for the state [move]
    returns (or throws as [move] does), and the store it leaves extends
    the old one: no object that existed is changed. *)
Lemma move_ref_refines graph heap this state dest :
  read_state heap this = Some state →
  match move graph state dest with
  | Ret state' =>
      ∃ heap' this',
        move_ref graph heap this dest = Ret (heap', this') ∧
        heap `prefix_of` heap' ∧
        read_state heap' this' = Some state'
  | Exn e => move_ref graph heap this dest = Exn e
  | OutOfFuel => False
  end.
Proof.
  unfold read_state, read_parcels, move, move_ref.
  destruct (heap !! this) as [[| |here parr]|] eqn:Hthis; try done.
  destruct (heap !! parr) as [[|elems|]|] eqn:Hparr; try done.
  destruct (mapM (read_parcel heap) elems) as [ps|] eqn:Hps; [|done].
  simpl. intros [= <-]. simpl.
  destruct (graph !! to_key here) as [places|]; [|done].
  destruct (bool_decide (dest ∈ places)); simpl.
  - apply mapM_Some in Hps.
    destruct (map_parcels_spec heap here dest elems ps Hps)
      as (heap1 & mapped & -> & Hpre1 & Hmapped). simpl.
    set (heap2 := heap1 ++ [ArrayObject mapped]).
    assert (heap1 `prefix_of` heap2) as Hpre2 by (by apply prefix_app_r).
    destruct (filter_parcels_spec heap2 mapped _
                (read_all_prefix _ _ _ _ Hpre2 Hmapped))
      as (kept & -> & Hkept). simpl.
    set (heap3 := heap2 ++ [ArrayObject kept]).
    set (heap4 := heap3 ++ [StateObject dest (length heap2)]).
    assert (heap2 `prefix_of` heap4) as Hpre4.
    { unfold heap4, heap3. by do 2 apply prefix_app_r. }
    exists heap4, (length heap3). split_and!; [done| |].
    + etrans; [done|]. by etrans.
    + unfold heap4 at 1. rewrite list_lookup_middle by done.
      assert (heap4 !! length heap2 = Some (ArrayObject kept)) as ->.
      { unfold heap4, heap3. rewrite <- app_assoc. by apply list_lookup_middle. }
      apply (read_all_prefix _ _ _ _ Hpre4), mapM_Some in Hkept.
      by rewrite Hkept.
  - exists heap, this. split_and!; [done..|].
    by rewrite Hthis, Hparr, Hps.
Qed.

(** After [move_ref], every reference of the old store stands for what
    it stood for: the state [this], its parcel array and its parcels are
    not mutated. *)
Lemma move_ref_preserves graph heap this dest heap' this' :
  is_Some (read_state heap this) →
  move_ref graph heap this dest = Ret (heap', this') →
  heap `prefix_of` heap' ∧
  (∀ r o, heap !! r = Some o → heap' !! r = Some o) ∧
  read_state heap' this = read_state heap this.
Proof.
  intros [state Hstate] Hmove.
  pose proof (move_ref_refines graph heap this state dest Hstate) as Href.
  rewrite Hmove in Href.
  destruct (move graph state dest) as [state'| |]; [|done..].
  destruct Href as (heap'' & this'' & [= <- <-] & Hpre & _).
  split_and!; [done| |].
  - intros r o Hr. by eapply prefix_lookup_Some.
  - rewrite Hstate. by eapply read_state_prefix.
Qed.

(** A move that is not to a neighbour returns the reference it was
    called on and leaves the store as it is. *)
Lemma move_ref_not_adjacent graph heap this state dest places :
  read_state heap this = Some state →
  graph !! to_key (robot_place state) = Some places →
  dest ∉ places →
  move_ref graph heap this dest = Ret (heap, this).
Proof.
  unfold read_state, move_ref.
  destruct (heap !! this) as [[| |here parr]|]; try done.
  destruct (read_parcels heap parr); [|done]. simpl.
  intros [= <-]. simpl. intros -> Hout.
  by rewrite bool_decide_eq_false_2.
Qed.

(** A move to a neighbour returns a reference to a new object. *)
Lemma move_ref_adjacent graph heap this state dest heap' this' :
  read_state heap this = Some state →
  adjacent graph (robot_place state) dest →
  move_ref graph heap this dest = Ret (heap', this') →
  length heap ≤ this'.
Proof.
  unfold read_state, read_parcels, move_ref.
  destruct (heap !! this) as [[| |here parr]|]; try done.
  destruct (heap !! parr) as [[|elems|]|]; try done.
  destruct (mapM (read_parcel heap) elems) as [ps|] eqn:Hps; [|done].
  simpl. intros [= <-] (places & Hplaces & Hin). simpl in Hplaces.
  rewrite Hplaces, bool_decide_eq_true_2 by done. simpl.
  apply mapM_Some in Hps.
  destruct (map_parcels_spec heap here dest elems ps Hps)
    as (heap1 & mapped & -> & Hpre1 & _). simpl.
  destruct (filter_parcels (heap1 ++ [ArrayObject mapped]) mapped); [|done..].
  simpl. intros [= _ <-]. rewrite !length_app. simpl.
  apply prefix_length in Hpre1. lia.
Qed.

(** C4.  A move to an adjacent destination returns a new state whose
    place is the destination and whose parcels are those of the old
    state, each one that was at the robot's place relocated to the
    destination and the others untouched, without those that are then at
    their address.  On references, the state returned is an object that
    did not exist before the call, and the state the call was made on
    still reads as it did.  From the Post Office with one parcel for
    Alice's House, the move to Alice's House leaves no parcel. *)
Theorem move_adjacent :
  (∀ (graph : Graph) (state : VillageState) (dest : value),
     adjacent graph (robot_place state) dest →
     let state' :=
       mkVillageState dest
         (filter (fun p => ¬ delivered p)
            (relocate (robot_place state) dest <$> parcels state)) in
     move graph state dest = Ret state'
     ∧ ∀ heap this, read_state heap this = Some state →
         ∃ heap' this',
           move_ref graph heap this dest = Ret (heap', this')
           ∧ length heap ≤ this'
           ∧ read_state heap' this' = Some state'
           ∧ read_state heap' this = Some state)
  ∧ move roadGraph
      (mkVillageState (str "Post Office")
         [mkParcel (str "Post Office") (str "Alice's House")])
      (str "Alice's House")
    = Ret (mkVillageState (str "Alice's House") []).
Proof.
  split; [|by vm_compute].
  intros graph state dest Hadj state'.
  pose proof (move_to_neighbour graph state dest Hadj) as Hmove.
  split; [done|]. intros heap this Hstate.
  pose proof (move_ref_refines graph heap this state dest Hstate) as Href.
  rewrite Hmove in Href. destruct Href as (heap' & this' & Href & Hpre & Hnew).
  exists heap', this'. split_and!; [done| |done|].
  - by eapply move_ref_adjacent.
  - by eapply read_state_prefix.
Qed.

Lemma move_adjacent_witness :
  move roadGraph
    (mkVillageState (str "Post Office")
       [mkParcel (str "Post Office") (str "Farm");
        mkParcel (str "Marketplace") (str "Shop")])
    (str "Marketplace")
  = Ret (mkVillageState (str "Marketplace")
           [mkParcel (str "Marketplace") (str "Farm");
            mkParcel (str "Marketplace") (str "Shop")]).
Proof.
  apply (proj1 move_adjacent roadGraph
           (mkVillageState (str "Post Office")
              [mkParcel (str "Post Office") (str "Farm");
               mkParcel (str "Marketplace") (str "Shop")])
           (str "Marketplace")).
  eexists. split; [by vm_compute|].
  repeat first [apply list_elem_of_here | apply list_elem_of_further].
Defined.

(** C3.  A move to a destination that is not among the neighbours of
    the robot's place returns the state it was called on: the same place
    and the same parcels.  On references, the call returns the very
    reference it was given and the store is left as it was, so the
    state object is not mutated. *)
Theorem move_not_adjacent (graph : Graph) (state : VillageState)
    (dest : value) (places : list value) :
  graph !! to_key (robot_place state) = Some places →
  dest ∉ places →
  move graph state dest = Ret state
  ∧ ∀ heap this, read_state heap this = Some state →
      move_ref graph heap this dest = Ret (heap, this).
Proof.
  intros Hplaces Hout. split.
  - rewrite (move_unfold _ _ _ places Hplaces). by rewrite bool_decide_eq_false_2.
  - intros heap this Hstate. by eapply move_ref_not_adjacent.
Qed.

Lemma move_not_adjacent_witness :
  move roadGraph
    (mkVillageState (str "Post Office")
       [mkParcel (str "Post Office") (str "Cabin")])
    (str "Cabin")
  = Ret (mkVillageState (str "Post Office")
           [mkParcel (str "Post Office") (str "Cabin")]).
Proof.
  apply (move_not_adjacent roadGraph
           (mkVillageState (str "Post Office")
              [mkParcel (str "Post Office") (str "Cabin")])
           (str "Cabin") [str "Alice's House"; str "Marketplace"]).
  - by vm_compute.
  - intros Hin. repeat (apply elem_of_cons in Hin as [Hin|Hin]; [done|]).
    by apply elem_of_nil in Hin.
Defined.

(** C7, as the code has it.  For a place that no road of the edge list
    has as an end (ends are compared as the keys of the graph object, so
    a descriptor without a dash registers the key "undefined"), the
    query for its neighbours, [graph[p]], raises nothing: it gives
    [undefined].  What fails is the use made of it, with an error of
    the runtime and not one of the program: the neighbour test of [move]
    throws the [TypeError] of reading [includes] of [undefined], the
    neighbour loop of [findRoute] the [TypeError] of iterating over
    [undefined], both before doing anything else. *)
Theorem unknown_place_throws (edges : list string) (p : value) :
  ¬ registered_in edges p →
  buildGraph edges !! to_key p = None
  ∧ (∀ parcels dest,
       move (buildGraph edges) (mkVillageState p parcels) dest
       = Exn (TypeError (ReadOfUndefined "includes")))
  ∧ (∀ to, findRoute (buildGraph edges) p to = Exn (TypeError NotIterable)).
Proof.
  intros Hun.
  assert (buildGraph edges !! to_key p = None) as Hnone.
  { apply eq_None_not_Some. by rewrite buildGraph_registered. }
  split_and!; [done| |].
  - intros ps dest. unfold move. simpl. by rewrite Hnone.
  - intros to. by apply findRoute_unregistered.
Qed.

Lemma unknown_place_throws_witness :
  buildGraph roads !! "Harbour" = None
  ∧ (∀ parcels dest,
       move (buildGraph roads) (mkVillageState (str "Harbour") parcels) dest
       = Exn (TypeError (ReadOfUndefined "includes")))
  ∧ (∀ to, findRoute (buildGraph roads) (str "Harbour") to
           = Exn (TypeError NotIterable)).
Proof.
  apply (unknown_place_throws roads (str "Harbour")).
  intros (r & Hr & Hreg). unfold roads in Hr.
  repeat (apply elem_of_cons in Hr as [->|Hr];
          [by destruct Hreg as [Hreg|Hreg]; vm_compute in Hreg|]).
  by apply elem_of_nil in Hr.
Defined.

(** C7, as stated, fails: no road names Harbour, and the query for its
    neighbours in the village graph does not fail: it gives [undefined].
    The errors that follow are the runtime's, and not the same one in
    the two places where the program asks: a move from Harbour throws
    on reading [includes], a search from Harbour on iterating. *)
Lemma unknown_place_reads_undefined :
  ¬ registered_in roads (str "Harbour")
  ∧ roadGraph !! to_key (str "Harbour") = None
  ∧ move roadGraph (mkVillageState (str "Harbour") []) (str "Cabin")
    = Exn (TypeError (ReadOfUndefined "includes"))
  ∧ findRoute roadGraph (str "Harbour") (str "Cabin")
    = Exn (TypeError NotIterable)
  ∧ move roadGraph (mkVillageState (str "Harbour") []) (str "Cabin")
    ≠ Exn (TypeError NotIterable).
Proof.
  split_and!; [|by vm_compute..].
  intros (r & Hr & Hreg). unfold roads in Hr.
  repeat (apply elem_of_cons in Hr as [->|Hr];
          [by destruct Hreg as [Hreg|Hreg]; vm_compute in Hreg|]).
  by apply elem_of_nil in Hr.
Qed.

(** ** The choice of the lazy robot *)

Lemma score_has_route c :
  is_Some (cand_route c) → score c = Ret (score_of c).
Proof. intros [r Hr]. unfold score, score_of. by rewrite Hr. Qed.

Lemma better_has_route a b :
  is_Some (cand_route a) → is_Some (cand_route b) →
  better a b = Ret (if Qgtb (score_of a) (score_of b) then a else b).
Proof.
  intros Ha Hb. unfold better. by rewrite !score_has_route.
Qed.

Lemma Qgtb_true x y : Qgtb x y = true → (y < x)%Q.
Proof.
  unfold Qgtb. intros H%negb_true_iff. apply Qnot_le_lt.
  intros Hle%Qle_bool_iff. congruence.
Qed.

Lemma Qgtb_false x y : Qgtb x y = false → (x <= y)%Q.
Proof. unfold Qgtb. intros H%negb_false_iff. by apply Qle_bool_iff. Qed.

(** [reduce] with [better] keeps the last of the candidates that score
    highest. *)
Lemma reduce_better cands :
  cands ≠ [] →
  Forall (fun c => is_Some (cand_route c)) cands →
  ∃ i c, reduce better cands = Ret c ∧ selected_by false cands i c.
Proof.
  destruct cands as [|a l]; [done|]. intros _. simpl.
  induction l as [|b l IH] using rev_ind; intros Hall.
  - exists 0, a. split; [done|]. split_and!; [done| |].
    + intros [|j] c'; simpl; [|done]. intros [= <-]. apply Qle_refl.
    + intros [|j] c'; simpl; [lia|done].
  - rewrite app_comm_cons in Hall. apply Forall_app in Hall as [Hl Hb].
    apply Forall_cons in Hb as [Hb _].
    destruct (IH Hl) as (i & c & Hred & Hi & Hmax & Hlast).
    rewrite foldl_snoc, Hred. simpl.
    assert (is_Some (cand_route c)) as Hc.
    { eapply Forall_forall in Hl; [done|]. by eapply list_elem_of_lookup_2. }
    rewrite better_has_route by done.
    assert (i < length (a :: l)) as Hlen by (by eapply lookup_lt_Some).
    destruct (Qgtb (score_of c) (score_of b)) eqn:Hgt.
    + apply Qgtb_true in Hgt. exists i, c. split; [done|]. split_and!.
      * rewrite app_comm_cons. by apply lookup_app_l_Some.
      * intros j c'. rewrite app_comm_cons.
        intros [?|[_ Hj]]%lookup_app_Some; [by eapply Hmax|].
        apply list_lookup_singleton_Some in Hj as [_ <-]. by apply Qlt_le_weak.
      * intros j c'. rewrite app_comm_cons.
        intros [?|[_ Hj]]%lookup_app_Some ?; [by eapply Hlast|].
        by apply list_lookup_singleton_Some in Hj as [_ <-].
    + apply Qgtb_false in Hgt. exists (length (a :: l)), b. split; [done|].
      split_and!.
      * rewrite app_comm_cons. by apply list_lookup_middle.
      * intros j c'. rewrite app_comm_cons.
        intros [Hj|[_ Hj]]%lookup_app_Some.
        -- eapply Qle_trans; [by eapply Hmax|done].
        -- apply list_lookup_singleton_Some in Hj as [_ <-]. apply Qle_refl.
      * intros j c'. rewrite app_comm_cons. intros Hj Hlt.
        apply lookup_lt_Some in Hj. rewrite length_app in Hj. simpl in *. lia.
Qed.

Lemma mapM_Ret {A B : Type} (f : A → outcome B) l bs :
  Forall2 (fun a b => f a = Ret b) l bs → mapM f l = Ret bs.
Proof.
  induction 1 as [|a b l bs Ha _ IH]; [done|].
  simpl. rewrite Ha. simpl. rewrite IH. done.
Qed.

Lemma candidate_leg graph here p r :
  findRoute graph here (fst (leg here p)) = Ret (Some r) →
  candidate graph here p = Ret (mkCandidate (Some r) (snd (leg here p))).
Proof.
  unfold candidate, leg. destruct (decide (place p ≠ here)); simpl;
    by intros ->.
Qed.

Lemma candidates_exist graph here (ps : list Parcel) :
  (∀ p, p ∈ ps →
     ∃ r, findRoute graph here (fst (leg here p)) = Ret (Some r)) →
  ∃ cands,
    Forall2 (fun p c =>
               ∃ r, findRoute graph here (fst (leg here p)) = Ret (Some r)
                    ∧ c = mkCandidate (Some r) (snd (leg here p))) ps cands.
Proof.
  induction ps as [|p ps IH]; intros Hroutes; [by exists []|].
  destruct (Hroutes p) as [r Hr]; [apply list_elem_of_here|].
  destruct IH as [cands Hcands].
  { intros q Hq. by apply Hroutes, list_elem_of_further. }
  eexists (_ :: cands). apply Forall2_cons. split; [|done]. by exists r.
Qed.

(** C2, as the code has it.  For a state with at least one parcel,
    each of whose legs (to the parcel if it is not at the robot's place,
    else to its address) has a route, the lazy robot with an empty memory
    builds one candidate per parcel, scores each as (0.5 for a pick-up,
    else 0) minus the length of its route, and follows the route of a
    candidate of maximal score; among candidates of the same maximal
    score it is the one of the LAST such parcel in the sequence. *)
Theorem lazyRobot_selects (graph : Graph) (state : VillageState) :
  parcels state ≠ [] →
  (∀ p, p ∈ parcels state →
     ∃ r, findRoute graph (robot_place state)
            (fst (leg (robot_place state) p)) = Ret (Some r)) →
  scored_greedy false graph state.
Proof.
  intros Hne Hroutes.
  destruct (candidates_exist graph _ _ Hroutes) as [cands Hcands].
  assert (mapM (candidate graph (robot_place state)) (parcels state) = Ret cands)
    as Hmap.
  { apply mapM_Ret. eapply Forall2_impl; [done|].
    intros p c (r & Hr & ->). by apply candidate_leg. }
  assert (Forall (fun c => is_Some (cand_route c)) cands) as Hall.
  { apply Forall_forall. intros c [j Hj]%list_elem_of_lookup_1.
    destruct (Forall2_lookup_r _ _ _ _ _ Hcands Hj) as (p & _ & r & _ & ->).
    by eexists. }
  assert (cands ≠ []) as Hcne.
  { intros ->. apply Forall2_nil_inv_r in Hcands. done. }
  destruct (reduce_better cands Hcne Hall) as (i & c & Hred & Hsel).
  assert (is_Some (cand_route c)) as [r Hr].
  { eapply Forall_forall in Hall; [done|].
    destruct Hsel as [Hi _]. by eapply list_elem_of_lookup_2. }
  exists cands, i, c, r. split_and!; [done..|].
  unfold lazyRobot. simpl. rewrite Hmap. simpl. rewrite Hred. simpl.
  by rewrite Hr.
Qed.

Lemma lazyRobot_selects_witness :
  scored_greedy false roadGraph
    (mkVillageState (str "Post Office")
       [mkParcel (str "Alice's House") (str "Cabin");
        mkParcel (str "Post Office") (str "Marketplace");
        mkParcel (str "Farm") (str "Shop")]).
Proof.
  apply lazyRobot_selects; [done|].
  intros p Hp. simpl in Hp.
  repeat (apply elem_of_cons in Hp as [->|Hp]; [eexists; by vm_compute|]).
  by apply elem_of_nil in Hp.
Defined.

(** C2, as stated, fails on ties.  At the Post Office with a parcel at
    Alice's House and a parcel at the Marketplace, both pick-ups are one
    road away and score the same; the robot goes to the Marketplace, the
    leg of the second parcel, not to Alice's House. *)
Lemma lazy_tie_not_earliest :
  ¬ scored_greedy true roadGraph
      (mkVillageState (str "Post Office")
         [mkParcel (str "Alice's House") (str "Cabin");
          mkParcel (str "Marketplace") (str "Farm")]).
Proof.
  intros (cands & i & c & r & Hcands & (Hi & _ & Hfirst) & Hr & Hlazy).
  simpl in Hcands.
  apply Forall2_cons_inv_l in Hcands as (c0 & cands' & (r0 & Hr0 & ->) & Hcands & ->).
  apply Forall2_cons_inv_l in Hcands as (c1 & cands'' & (r1 & Hr1 & ->) & Hcands & ->).
  apply Forall2_nil_inv_l in Hcands as ->.
  vm_compute in Hr0. injection Hr0 as <-.
  vm_compute in Hr1. injection Hr1 as <-.
  vm_compute in Hlazy.
  destruct i as [|[|i]]; simpl in Hi; [| |done]; injection Hi as <-;
    simpl in Hr; injection Hr as <-.
  - done.
  - specialize (Hfirst 0 _ eq_refl). simpl in Hfirst.
    assert (0 < 1) as Hlt by lia. apply Hfirst in Hlt.
    vm_compute in Hlt. done.
Qed.

(** ** Robots on a state without parcels *)

Lemma findRoute_Exn graph from to e :
  findRoute graph from to = Exn e → e = TypeError NotIterable.
Proof.
  destruct (findRoute_total graph from to) as [(res & -> & _)|[-> _]];
    [done|by intros [= <-]].
Qed.

Lemma candidate_Exn graph here p e :
  candidate graph here p = Exn e → e = TypeError NotIterable.
Proof.
  unfold candidate. destruct (decide (place p ≠ here));
    [destruct (findRoute graph here (place p)) eqn:Hr
    |destruct (findRoute graph here (address p)) eqn:Hr]; simpl; try done;
    intros [= <-]; by eapply findRoute_Exn.
Qed.

Lemma mapM_Exn {A B : Type} (f : A → outcome B) l e :
  mapM f l = Exn e → ∃ a, a ∈ l ∧ f a = Exn e.
Proof.
  induction l as [|a l IH]; simpl; [done|].
  destruct (f a) as [b| |] eqn:Ha; simpl; [| |done].
  - destruct (mapM f l) as [bs| |]; simpl; try done.
    intros [= <-]. destruct IH as (a' & Ha' & He); [done|].
    exists a'. split; [by apply list_elem_of_further|done].
  - intros [= <-]. exists a. split; [apply list_elem_of_here|done].
Qed.

Lemma mapM_Ret_length {A B : Type} (f : A → outcome B) l bs :
  mapM f l = Ret bs → length bs = length l.
Proof.
  revert bs. induction l as [|a l IH]; intros bs; simpl.
  - by intros [= <-].
  - destruct (f a) as [b| |]; simpl; try done.
    destruct (mapM f l) as [bs'| |]; simpl; try done.
    intros [= <-]. simpl. by rewrite (IH bs').
Qed.

Lemma better_Exn a b e :
  better a b = Exn e → e = TypeError (ReadOfUndefined "length").
Proof.
  unfold better, score.
  destruct (cand_route a); simpl; [|by intros [= <-]].
  destruct (cand_route b); simpl; [done|by intros [= <-]].
Qed.

Lemma reduce_better_Exn cands e :
  cands ≠ [] →
  reduce better cands = Exn e → e = TypeError (ReadOfUndefined "length").
Proof.
  destruct cands as [|a l]; [done|]. intros _. simpl. revert e.
  induction l as [|b l IH] using rev_ind; intros e; [done|].
  rewrite foldl_snoc.
  destruct (foldl _ (Ret a) l) as [c| |] eqn:Hfold; simpl; [|by apply IH|done].
  apply better_Exn.
Qed.

Lemma follow_Exn route e :
  follow route = Exn e → e = TypeError (ReadOfUndefined "0").
Proof. destruct route; simpl; [done|by intros [= <-]]. Qed.

Lemma lazyRobot_no_reduce_error graph state route :
  parcels state ≠ [] →
  lazyRobot graph state route ≠ Exn (TypeError ReduceOfEmpty).
Proof.
  intros Hne. unfold lazyRobot. case_bool_decide; simpl; [|done].
  destruct (mapM _ (parcels state)) as [cands| |] eqn:Hmap; simpl; [| |done].
  - assert (cands ≠ []) as Hcne.
    { apply mapM_Ret_length in Hmap. intros ->.
      destruct (parcels state); [done|]. done. }
    destruct (reduce better cands) as [best| |] eqn:Hred; simpl; [| |done].
    + intros ?%follow_Exn. done.
    + apply reduce_better_Exn in Hred; [|done]. by intros [= ->].
  - apply mapM_Exn in Hmap as (p & _ & ?%candidate_Exn). by intros [= ->].
Qed.

Lemma goalOrientedRobot_no_parcel_error graph state route :
  parcels state ≠ [] →
  goalOrientedRobot graph state route ≠ Exn (TypeError (ReadOfUndefined "place")).
Proof.
  intros Hne. unfold goalOrientedRobot. case_bool_decide; simpl; [|done].
  destruct (parcels state) as [|parcel ps]; [done|]. simpl.
  destruct (decide (place parcel ≠ robot_place state)).
  - destruct (findRoute graph _ (place parcel)) as [r| |] eqn:Hr; simpl; [| |done].
    + intros ?%follow_Exn. done.
    + apply findRoute_Exn in Hr. by intros [= ->].
  - destruct (findRoute graph _ (address parcel)) as [r| |] eqn:Hr; simpl; [| |done].
    + intros ?%follow_Exn. done.
    + apply findRoute_Exn in Hr. by intros [= ->].
Qed.

(** [countSteps] asks the robot only at states that have parcels. *)
Lemma countSteps_from_ext {M : Type} graph fuel steps state
    (robot robot' : VillageState → M → outcome (Action M)) mem :
  (∀ s m, parcels s ≠ [] → robot s m = robot' s m) →
  countSteps_from graph fuel steps state robot mem
  = countSteps_from graph fuel steps state robot' mem.
Proof.
  intros Hext. revert steps state mem.
  induction fuel as [|fuel IH]; intros steps state mem; [done|]. simpl.
  case_bool_decide as Hlen; [done|].
  rewrite Hext by (intros Hnil; by rewrite Hnil in Hlen).
  destruct (robot' state mem) as [action| |]; simpl; [|done..].
  destruct (move graph state (direction action)) as [state'| |]; simpl; [|done..].
  apply IH.
Qed.

Lemma runRobot_from_ext {M : Type} graph fuel turn state
    (robot robot' : VillageState → M → outcome (Action M)) mem :
  (∀ s m, parcels s ≠ [] → robot s m = robot' s m) →
  runRobot_from graph fuel turn state robot mem
  = runRobot_from graph fuel turn state robot' mem.
Proof.
  intros Hext. revert turn state mem.
  induction fuel as [|fuel IH]; intros turn state mem; [done|]. simpl.
  case_bool_decide as Hlen; [done|].
  rewrite Hext by (intros Hnil; by rewrite Hnil in Hlen).
  destruct (robot' state mem) as [action| |]; [|done..].
  destruct (move graph state (direction action)) as [state'| |]; [|done..].
  by rewrite IH.
Qed.

(** C10.  With an empty memory and no parcels, [lazyRobot] fails in
    [reduce] on the empty candidate array and [goalOrientedRobot] fails
    reading the first parcel; with at least one parcel neither failure
    can occur, whatever the memory; and [countSteps] and [runRobot] test
    for the empty parcel array before each call of the robot, so what
    they do depends on the robot only at states that have parcels. *)
Theorem robots_need_parcels :
  (∀ (graph : Graph) (state : VillageState),
     parcels state = [] →
     lazyRobot graph state [] = Exn (TypeError ReduceOfEmpty)
     ∧ goalOrientedRobot graph state []
       = Exn (TypeError (ReadOfUndefined "place")))
  ∧ (∀ (graph : Graph) (state : VillageState) (route : list value),
       parcels state ≠ [] →
       lazyRobot graph state route ≠ Exn (TypeError ReduceOfEmpty)
       ∧ goalOrientedRobot graph state route
         ≠ Exn (TypeError (ReadOfUndefined "place")))
  ∧ (∀ (M : Type) (graph : Graph) (fuel : nat) (state : VillageState)
       (robot robot' : VillageState → M → outcome (Action M)) (mem : M),
       (∀ s m, parcels s ≠ [] → robot s m = robot' s m) →
       countSteps graph fuel state robot mem
       = countSteps graph fuel state robot' mem
       ∧ runRobot graph fuel state robot mem
         = runRobot graph fuel state robot' mem).
Proof.
  split_and!.
  - intros graph state Hnil. unfold lazyRobot, goalOrientedRobot.
    by rewrite Hnil.
  - intros graph state route Hne. split.
    + by apply lazyRobot_no_reduce_error.
    + by apply goalOrientedRobot_no_parcel_error.
  - intros M graph fuel state robot robot' mem Hext. split.
    + by apply countSteps_from_ext.
    + by apply runRobot_from_ext.
Qed.

Lemma robots_need_parcels_witness :
  (lazyRobot roadGraph (mkVillageState (str "Post Office") []) []
     = Exn (TypeError ReduceOfEmpty)
   ∧ goalOrientedRobot roadGraph (mkVillageState (str "Post Office") []) []
     = Exn (TypeError (ReadOfUndefined "place")))
  ∧ (lazyRobot roadGraph
       (mkVillageState (str "Post Office")
          [mkParcel (str "Cabin") (str "Farm")]) []
       ≠ Exn (TypeError ReduceOfEmpty)
     ∧ goalOrientedRobot roadGraph
         (mkVillageState (str "Post Office")
            [mkParcel (str "Cabin") (str "Farm")]) []
       ≠ Exn (TypeError (ReadOfUndefined "place")))
  ∧ countSteps roadGraph 20
      (mkVillageState (str "Post Office") [mkParcel (str "Cabin") (str "Farm")])
      (lazyRobot roadGraph) []
    = countSteps roadGraph 20
        (mkVillageState (str "Post Office") [mkParcel (str "Cabin") (str "Farm")])
        (fun s m => if bool_decide (parcels s = [])
                    then Ret (mkAction (str "Shop") [])
                    else lazyRobot roadGraph s m) [].
Proof.
  split; [|split].
  - by apply (proj1 robots_need_parcels roadGraph).
  - by apply (proj1 (proj2 robots_need_parcels) roadGraph).
  - apply (proj2 (proj2 robots_need_parcels)).
    intros s m Hne. by rewrite bool_decide_eq_false_2.
Defined.

(** * Further properties of the program *)

(** ** [buildGraph]: the arrays it stores *)

Lemma lookup_add_road graph pieces k :
  add_road graph pieces !! k =
    match contributions k pieces with
    | [] => graph !! k
    | c => Some (default [] (graph !! k) ++ c)
    end.
Proof.
  unfold add_road, contributions. rewrite !lookup_addEdge.
  destruct (decide (k = to_key (index pieces 1))) as [->|Hto].
  - destruct (decide (to_key (index pieces 1) = to_key (index pieces 0)))
      as [Heq|Hne]; simpl.
    + rewrite Heq. by rewrite <- app_assoc.
    + done.
  - destruct (decide (k = to_key (index pieces 0))) as [->|Hfrom]; by simpl.
Qed.

Lemma fold_add_road_lookup pieces_list graph k :
  fold_left add_road pieces_list graph !! k =
    match mjoin (contributions k <$> pieces_list) with
    | [] => graph !! k
    | c => Some (default [] (graph !! k) ++ c)
    end.
Proof.
  revert graph. induction pieces_list as [|pieces rest IH]; intros graph; [done|].
  cbn [fold_left]. rewrite IH, lookup_add_road, fmap_cons.
  change (mjoin (contributions k pieces :: (contributions k <$> rest)))
    with (contributions k pieces ++ mjoin (contributions k <$> rest)).
  generalize (mjoin (contributions k <$> rest)). intros m.
  destruct (contributions k pieces) as [|c cs]; destruct m as [|d ds]; simpl;
    rewrite ?app_nil_r, <- ?app_assoc; done.
Qed.

(** X1.  The graph built from an edge list stores under each key exactly
    the other ends of the roads that name it, in the order of the edge
    list and as often as they occur; a key that no road names has no
    entry. *)
Theorem buildGraph_lookup (edges : list string) (k : string) :
  buildGraph edges !! k =
    match neighbours_in edges k with
    | [] => None
    | places => Some places
    end.
Proof.
  unfold buildGraph, neighbours_in. rewrite fold_add_road_lookup.
  by rewrite lookup_empty.
Qed.

(** ** [buildGraph]: how a descriptor is read *)

Lemma split_dash_free s : dash_free s → split s = [s].
Proof.
  induction s as [|c s IH]; [done|]. intros [Hc Hs]. simpl.
  rewrite (proj2 (Ascii.eqb_neq _ _) Hc). by rewrite (IH Hs).
Qed.

Lemma split_descriptor a rest :
  dash_free a → split (a +:+ "-" +:+ rest) = a :: split rest.
Proof.
  induction a as [|c a IH]; [done|]. intros [Hc Ha]. simpl.
  rewrite (proj2 (Ascii.eqb_neq _ _) Hc). by rewrite (IH Ha).
Qed.

(** X2.  A descriptor "a-b" whose first name has no dash is read as the
    road from [a] to the part of [b] before its first dash: with a
    dash-free [b], as the road between [a] and [b]; what follows a second
    dash is ignored.  The graph of that one road then lists [b] under [a]
    and [a] under [b]. *)
Theorem descriptor_read (a b : string) :
  dash_free a →
  index (split (descriptor a b)) 0 = str a
  ∧ index (split (descriptor a b)) 1 = index (split b) 0
  ∧ (dash_free b →
     index (split (descriptor a b)) 1 = str b
     ∧ listed (buildGraph [descriptor a b]) a (str b)
     ∧ listed (buildGraph [descriptor a b]) b (str a)).
Proof.
  intros Ha. unfold descriptor. rewrite (split_descriptor a b Ha).
  split_and!; [done..|]. intros Hb. rewrite (split_dash_free b Hb).
  split; [done|]. unfold buildGraph, descriptor. simpl.
  rewrite !listed_add_road, (split_descriptor a b Ha), (split_dash_free b Hb).
  split; right; [by left|by right].
Qed.

Lemma descriptor_read_witness :
  index (split (descriptor "Farm" "Mill-Pond")) 0 = str "Farm"
  ∧ index (split (descriptor "Farm" "Mill-Pond")) 1 = str "Mill".
Proof.
  destruct (descriptor_read "Farm" "Mill-Pond") as (H0 & H1 & _).
  - by repeat split.
  - split; [exact H0|exact H1].
Defined.

(** ** [buildGraph]: roads go both ways *)

Lemma listed_back edges x y :
  Forall well_formed edges →
  listed (buildGraph edges) x (str y) → listed (buildGraph edges) y (str x).
Proof.
  intros Hwf. revert x y.
  apply (buildGraph_ind
           (fun graph => ∀ x y, listed graph x (str y) → listed graph y (str x))
           well_formed); [| |done].
  - intros x y (places & Hx & _). by rewrite lookup_empty in Hx.
  - intros graph r Hr IH x y. rewrite !listed_add_road.
    unfold well_formed in Hr. unfold index.
    destruct (split r) as [|from [|to pieces]]; simpl in *; [lia..|].
    intros [Hold|[[-> [= ->]]|[-> [= ->]]]]; [left; by apply IH|tauto..].
Qed.

(** X3.  In the graph built from descriptors that all have a dash, roads
    go both ways: [b] is listed under [a] exactly when [a] is listed
    under [b]. *)
Theorem buildGraph_symmetric (edges : list string) (a b : string) :
  Forall well_formed edges →
  adjacent (buildGraph edges) (str a) (str b)
  ↔ adjacent (buildGraph edges) (str b) (str a).
Proof.
  intros Hwf. unfold adjacent. simpl. split; by apply listed_back.
Qed.

Lemma buildGraph_symmetric_witness :
  adjacent roadGraph (str "Farm") (str "Marketplace")
  ↔ adjacent roadGraph (str "Marketplace") (str "Farm").
Proof.
  apply (buildGraph_symmetric roads "Farm" "Marketplace").
  unfold roads, well_formed. repeat (apply Forall_cons; split; [vm_compute; lia|]).
  apply Forall_nil_2.
Defined.

(** ** The routes that [findRoute] returns *)

Lemma walk_app graph a l1 l2 :
  walk graph a (l1 ++ l2) ↔ walk graph a l1 ∧ walk graph (walk_end a l1) l2.
Proof.
  revert a. induction l1 as [|b l1 IH]; intros a; simpl.
  - rewrite walk_end_nil. tauto.
  - rewrite IH, walk_end_cons. tauto.
Qed.

Lemma walk_end_app a l1 b l2 :
  walk_end a (l1 ++ b :: l2) = walk_end b l2.
Proof.
  revert a. induction l1 as [|c l1 IH]; intros a; simpl.
  - apply walk_end_cons.
  - rewrite walk_end_cons. apply IH.
Qed.

Lemma leads_walk_end graph from l to :
  leads graph from l to ↔ l ≠ [] ∧ walk graph from l ∧ walk_end from l = to.
Proof.
  unfold leads, walk_end. destruct (last l) as [x|] eqn:Hlast; simpl.
  - split.
    + intros [? [= ->]]. split_and!; [|done..]. by intros ->.
    + intros (_ & ? & ->). done.
  - apply last_None in Hlast as ->. split; [by intros [_ ?]|by intros [? _]].
Qed.

(** Cutting a loop out of a route leaves a route. *)
Lemma leads_cut graph from l1 x l2 l3 to :
  leads graph from (l1 ++ x :: l2 ++ x :: l3) to →
  leads graph from (l1 ++ x :: l3) to.
Proof.
  rewrite !leads_walk_end. intros (_ & Hwalk & Hend). split_and!.
  - by destruct l1.
  - apply walk_app in Hwalk as [H1 Hwalk]. apply walk_app. split; [done|].
    destruct Hwalk as [Hx Hwalk]. split; [done|].
    apply walk_app in Hwalk as [_ [_ Hwalk]]. done.
  - rewrite walk_end_app in *. by rewrite walk_end_app in Hend.
Qed.

(** A shortest route visits no place twice. *)
Lemma shortest_route_NoDup graph from r to :
  shortest_route graph from r to → NoDup r.
Proof.
  intros [Hleads Hmin]. apply NoDup_alt. intros i j x Hi Hj.
  destruct (decide (i = j)) as [|Hne]; [done|]. exfalso.
  assert (∀ i j, i < j → r !! i = Some x → r !! j = Some x → False) as Hcut.
  { clear i j Hi Hj Hne. intros i j Hlt Hi Hj.
    pose proof (take_drop_middle r i x Hi) as Hr.
    assert (drop (S i) r !! (j - S i) = Some x) as Hj'.
    { rewrite lookup_drop. rewrite <- Hj. f_equal. lia. }
    pose proof (take_drop_middle _ _ _ Hj') as Hr'.
    rewrite <- Hr' in Hr. rewrite <- Hr in Hleads.
    apply leads_cut, Hmin in Hleads.
    rewrite <- Hr in Hleads at 1. rewrite !length_app in Hleads.
    simpl in Hleads. rewrite !length_app in Hleads. simpl in Hleads. lia. }
  destruct (decide (i < j)); [by eapply (Hcut i j)|].
  eapply (Hcut j i); [lia|done..].
Qed.

(** A shortest route reaches its target, and passes its start again,
    at its last place only. *)
Lemma shortest_route_ends graph from r to :
  shortest_route graph from r to →
  (to ∉ removelast r) ∧ (from ∉ removelast r).
Proof.
  intros [Hleads Hmin].
  apply leads_snoc in Hleads as (l & -> & Hwalk & Hadj).
  rewrite removelast_last. split.
  - intros (l1 & l2 & ->)%list_elem_of_split.
    assert (leads graph from (l1 ++ [to]) to) as Hshort.
    { apply leads_snoc. exists l1. split; [done|].
      apply walk_app in Hwalk as [H1 [Hto _]]. done. }
    apply Hmin in Hshort.
    rewrite ?length_app in Hshort; simpl in Hshort;
      rewrite ?length_app in Hshort; simpl in Hshort; lia.
  - intros (l1 & l2 & ->)%list_elem_of_split.
    assert (leads graph from (l2 ++ [to]) to) as Hshort.
    { apply leads_snoc. exists l2. rewrite walk_end_app in Hadj.
      apply walk_app in Hwalk as [_ [_ Hwalk]].
      split_and!; [done|done|].
      destruct l2; [|by rewrite walk_end_cons in Hadj |- *].
      by rewrite walk_end_nil in *. }
    apply Hmin in Hshort.
    rewrite ?length_app in Hshort; simpl in Hshort;
      rewrite ?length_app in Hshort; simpl in Hshort; lia.
Qed.

Lemma findRoute_Some_shortest graph from to r :
  findRoute graph from to = Ret (Some r) → shortest_route graph from r to.
Proof.
  intros Hr.
  destruct (findRoute_total graph from to) as [(res & Hres & Hspec)|[Hexn _]];
    [|congruence].
  rewrite Hr in Hres. by injection Hres as <-.
Qed.

(** X4.  Whatever the graph, a route that [findRoute] returns is a walk
    from the start to the target that visits no place twice, reaches the
    target at its last place only and does not come back to the start on
    the way. *)
Theorem findRoute_simple (graph : Graph) (from to : value) (r : list value) :
  findRoute graph from to = Ret (Some r) →
  leads graph from r to
  ∧ NoDup r
  ∧ (to ∉ removelast r)
  ∧ (from ∉ removelast r).
Proof.
  intros Hspec%findRoute_Some_shortest.
  destruct (shortest_route_ends _ _ _ _ Hspec).
  split_and!; [apply Hspec|by eapply shortest_route_NoDup|done..].
Qed.

Lemma findRoute_simple_witness :
  leads roadGraph (str "Cabin")
    [str "Alice's House"; str "Bob's House"; str "Town Hall";
     str "Daria's House"; str "Ernie's House"] (str "Ernie's House")
  ∧ NoDup [str "Alice's House"; str "Bob's House"; str "Town Hall";
           str "Daria's House"; str "Ernie's House"]
  ∧ (str "Ernie's House"
      ∉ removelast [str "Alice's House"; str "Bob's House"; str "Town Hall";
                    str "Daria's House"; str "Ernie's House"])
  ∧ (str "Cabin"
      ∉ removelast [str "Alice's House"; str "Bob's House"; str "Town Hall";
                    str "Daria's House"; str "Ernie's House"]).
Proof.
  apply (findRoute_simple roadGraph (str "Cabin") (str "Ernie's House")).
  by vm_compute.
Defined.

(** ** Following a route *)

Lemma drive_walk graph state route :
  walk graph (robot_place state) route →
  ∃ state', drive graph state route = Ret state'
    ∧ robot_place state' = walk_end (robot_place state) route
    ∧ length (parcels state') ≤ length (parcels state).
Proof.
  revert state. induction route as [|d route IH]; intros state.
  - intros _. exists state. by split_and!.
  - intros [Hadj Hwalk]. simpl.
    rewrite (move_to_neighbour graph state d Hadj). simpl.
    destruct (IH (mkVillageState d
                    (filter (fun p => ¬ delivered p)
                       (relocate (robot_place state) d <$> parcels state))))
      as (state' & Hdrive & Hplace & Hlen); [done|].
    exists state'. split_and!; [done| |].
    + by rewrite walk_end_cons.
    + etrans; [done|]. simpl. etrans; [apply length_filter|].
      by rewrite length_fmap.
Qed.

(** X5.  A route that [findRoute] returns from the robot's place can be
    driven: moving along it, place by place, throws nowhere and ends in a
    state where the robot is at the target, with no more parcels than
    before; and every one of these moves is a real move, to a neighbour
    of the place the robot is at. *)
Theorem findRoute_drive (graph : Graph) (state : VillageState) (to : value)
    (r : list value) :
  findRoute graph (robot_place state) to = Ret (Some r) →
  walk graph (robot_place state) r
  ∧ ∃ state', drive graph state r = Ret state'
      ∧ robot_place state' = to
      ∧ length (parcels state') ≤ length (parcels state).
Proof.
  intros [Hleads _]%findRoute_Some_shortest.
  apply leads_walk_end in Hleads as (_ & Hwalk & Hend). split; [done|].
  destruct (drive_walk graph state r Hwalk) as (state' & Hdrive & Hplace & Hlen).
  exists state'. split_and!; [done| |done]. by rewrite Hplace.
Qed.

Lemma findRoute_drive_witness :
  walk roadGraph (str "Post Office") [str "Marketplace"; str "Farm"]
  ∧ ∃ state',
      drive roadGraph
        (mkVillageState (str "Post Office")
           [mkParcel (str "Post Office") (str "Farm")])
        [str "Marketplace"; str "Farm"] = Ret state'
      ∧ robot_place state' = str "Farm"
      ∧ length (parcels state') ≤ 1.
Proof.
  apply (findRoute_drive roadGraph
           (mkVillageState (str "Post Office")
              [mkParcel (str "Post Office") (str "Farm")])
           (str "Farm")).
  by vm_compute.
Defined.

(** ** The two route-following robots compared *)

Lemma move_length graph state dest state' :
  move graph state dest = Ret state' →
  length (parcels state') ≤ length (parcels state).
Proof.
  unfold move. destruct (graph !! to_key (robot_place state)); [|done].
  destruct (negb _); intros [= <-]; [done|]. simpl.
  etrans; [apply length_filter|]. by rewrite length_map.
Qed.

(** The simulation asks the robot only at the states it comes through:
    two robots that agree on the states with parcels of a set that moves
    do not leave give the same count. *)
Lemma countSteps_from_agree {M : Type} (P : VillageState → Prop) graph fuel
    steps state (robot robot' : VillageState → M → outcome (Action M)) mem :
  (∀ s d s', P s → move graph s d = Ret s' → P s') →
  (∀ s m, P s → parcels s ≠ [] → robot s m = robot' s m) →
  P state →
  countSteps_from graph fuel steps state robot mem
  = countSteps_from graph fuel steps state robot' mem.
Proof.
  intros Hmove Hext. revert steps state mem.
  induction fuel as [|fuel IH]; intros steps state mem HP; [done|]. simpl.
  case_bool_decide as Hlen; [done|].
  rewrite Hext; [|done|intros Hnil; by rewrite Hnil in Hlen].
  destruct (robot' state mem) as [action| |]; simpl; [|done..].
  destruct (move graph state (direction action)) as [state'| |] eqn:Hm;
    simpl; [|done..].
  apply IH. by eapply Hmove.
Qed.

Lemma single_parcel_decision graph state route :
  length (parcels state) = 1 →
  lazyRobot graph state route = goalOrientedRobot graph state route.
Proof.
  intros Hone. unfold lazyRobot, goalOrientedRobot.
  case_bool_decide; [|done].
  destruct (parcels state) as [|parcel [|? ?]]; try done. simpl.
  unfold candidate.
  destruct (decide (place parcel ≠ robot_place state));
    by destruct (findRoute graph _ _) as [[r|]| |].
Qed.

(** X6.  With exactly one parcel the lazy robot decides as the
    goal-oriented robot does, whatever the memory; so a task of at most
    one parcel takes both robots the same number of steps (or fails the
    same way). *)
Theorem single_parcel_same (graph : Graph) (state : VillageState) :
  length (parcels state) ≤ 1 →
  (∀ route, parcels state ≠ [] →
     lazyRobot graph state route = goalOrientedRobot graph state route)
  ∧ (∀ fuel mem,
       countSteps graph fuel state (lazyRobot graph) mem
       = countSteps graph fuel state (goalOrientedRobot graph) mem).
Proof.
  intros Hone. split.
  - intros route Hne. apply single_parcel_decision.
    destruct (parcels state) as [|? [|? ?]]; simpl in *; [done..|lia].
  - intros fuel mem.
    apply (countSteps_from_agree (fun s => length (parcels s) ≤ 1)); [| |done].
    + intros s d s' Hs Hmove. apply move_length in Hmove. lia.
    + intros s m Hs Hne. apply single_parcel_decision.
      destruct (parcels s) as [|? [|? ?]]; simpl in *; [done..|lia].
Qed.

Lemma single_parcel_same_witness :
  countSteps roadGraph 30
    (mkVillageState (str "Post Office") [mkParcel (str "Cabin") (str "Farm")])
    (lazyRobot roadGraph) []
  = countSteps roadGraph 30
      (mkVillageState (str "Post Office") [mkParcel (str "Cabin") (str "Farm")])
      (goalOrientedRobot roadGraph) [].
Proof.
  apply (single_parcel_same roadGraph
           (mkVillageState (str "Post Office")
              [mkParcel (str "Cabin") (str "Farm")])).
  simpl. lia.
Defined.

(** ** The two simulation loops compared *)

(** X7.  [runRobot] and [countSteps] run the same simulation: when
    [countSteps] returns [n], [runRobot] writes one "Moved" line for each
    of the [n] turns and then "Done in n turns"; when [countSteps] throws,
    [runRobot] throws the same error; and a run that one of them does not
    finish within a budget, the other does not finish either. *)
Theorem runRobot_countSteps (M : Type) (graph : Graph) (fuel : nat)
    (state : VillageState) (robot : VillageState → M → outcome (Action M))
    (mem : M) :
  match countSteps graph fuel state robot mem with
  | Ret n =>
      ∃ directions,
        runRobot graph fuel state robot mem
        = ((Moved <$> directions) ++ [Done n], Ret ())
        ∧ length directions = n
  | Exn e => (runRobot graph fuel state robot mem).2 = Exn e
  | OutOfFuel => (runRobot graph fuel state robot mem).2 = OutOfFuel
  end.
Proof.
  unfold countSteps, runRobot.
  assert (∀ turn,
    match countSteps_from graph fuel turn state robot mem with
    | Ret n =>
        ∃ directions,
          runRobot_from graph fuel turn state robot mem
          = ((Moved <$> directions) ++ [Done n], Ret ())
          ∧ turn + length directions = n
    | Exn e => (runRobot_from graph fuel turn state robot mem).2 = Exn e
    | OutOfFuel => (runRobot_from graph fuel turn state robot mem).2 = OutOfFuel
    end) as H; [|apply (H 0)].
  revert state mem. induction fuel as [|fuel IH]; intros state mem turn; [done|].
  simpl. case_bool_decide.
  - exists []. split; [done|]. simpl. lia.
  - destruct (robot state mem) as [action| |]; simpl; [|done..].
    destruct (move graph state (direction action)) as [state'| |]; simpl; [|done..].
    specialize (IH state' (memory action) (S turn)).
    destruct (countSteps_from graph fuel (S turn) state' robot (memory action))
      as [n| |].
    + destruct IH as (directions & -> & Hlen).
      exists (direction action :: directions). split; [done|]. simpl. lia.
    + by destruct (runRobot_from _ _ _ _ _ _).
    + by destruct (runRobot_from _ _ _ _ _ _).
Qed.

(** ** The route robot *)

Lemma routeRobot_step (itinerary : list value) state j x :
  itinerary !! j = Some x →
  routeRobot itinerary state (drop j itinerary)
  = Ret (mkAction x (drop (S j) itinerary)).
Proof.
  intros Hx. unfold routeRobot.
  rewrite bool_decide_eq_false_2
    by (rewrite length_drop; apply lookup_lt_Some in Hx; lia).
  simpl. rewrite drop_drop, Nat.add_1_r.
  by rewrite head_lookup, lookup_drop, Nat.add_0_r, Hx.
Qed.

Lemma routeRobot_restart (itinerary : list value) state :
  routeRobot itinerary state [] = routeRobot itinerary state (drop 0 itinerary).
Proof.
  unfold routeRobot. rewrite drop_0. simpl.
  by destruct itinerary.
Qed.

Lemma ask_route_from (itinerary : list value) states j :
  itinerary ≠ [] →
  j ≤ length itinerary →
  ∃ directions,
    ask (routeRobot itinerary) states (drop j itinerary) = Ret directions
    ∧ length directions = length states
    ∧ ∀ k, k < length states →
        directions !! k = itinerary !! ((j + k) mod length itinerary).
Proof.
  intros Hne. assert (0 < length itinerary) as Hpos.
  { destruct itinerary; simpl; [done|lia]. }
  revert j. induction states as [|state states IH]; intros j Hj.
  - exists []. split_and!; [done..|]. simpl. lia.
  - assert (∃ j', j' < length itinerary ∧ j' = j mod length itinerary
              ∧ routeRobot itinerary state (drop j itinerary)
                = routeRobot itinerary state (drop j' itinerary))
      as (j' & Hj' & Hmod & Hsame).
    { destruct (decide (j = length itinerary)) as [->|Hne'].
      - exists 0. split_and!; [done|by rewrite Nat.Div0.mod_same|].
        rewrite drop_all. apply routeRobot_restart.
      - exists j. split_and!; [lia|by rewrite Nat.mod_small by lia|done]. }
    destruct (itinerary !! j') as [x|] eqn:Hx;
      [|apply lookup_ge_None in Hx; lia].
    destruct (IH (S j')) as (directions & Hask & Hlen & Hdirs); [lia|].
    cbn [ask]. rewrite Hsame, (routeRobot_step _ _ _ x Hx). simpl.
    rewrite Hask. simpl. exists (x :: directions).
    split_and!; [done|simpl; lia|].
    intros [|k] Hk; simpl.
    + by rewrite Nat.add_0_r, <- Hmod.
    + rewrite Hdirs by (simpl in Hk; lia). f_equal.
      rewrite Hmod. replace (j + S k) with (j + (1 + k)) by lia.
      rewrite <- (Nat.Div0.add_mod_idemp_l j). f_equal. lia.
Qed.

(** X8.  The route robot goes round its itinerary for ever: started
    with an empty memory and asked any number of times, whatever the
    states, its [k]th direction (from 0) is the place of the itinerary at
    position [k mod length]; after the last place it starts again at the
    first. *)
Theorem routeRobot_cycles (itinerary : list value) (states : list VillageState) :
  itinerary ≠ [] →
  ∃ directions,
    ask (routeRobot itinerary) states [] = Ret directions
    ∧ length directions = length states
    ∧ ∀ k, k < length states →
        directions !! k = itinerary !! (k mod length itinerary).
Proof.
  intros Hne.
  destruct (ask_route_from itinerary states (length itinerary) Hne)
    as (directions & Hask & Hlen & Hdirs); [done|].
  rewrite drop_all in Hask. exists directions. split_and!; [done..|].
  intros k Hk. rewrite (Hdirs k Hk). f_equal.
  rewrite <- Nat.Div0.add_mod_idemp_l, Nat.Div0.mod_same. done.
Qed.

Lemma routeRobot_cycles_witness :
  ∃ directions,
    ask (routeRobot mailRoute)
      (replicate 15 (mkVillageState (str "Post Office") [])) [] = Ret directions
    ∧ length directions = 15
    ∧ ∀ k, k < 15 → directions !! k = mailRoute !! (k mod 13).
Proof.
  apply (routeRobot_cycles mailRoute
           (replicate 15 (mkVillageState (str "Post Office") []))).
  done.
Defined.

(** ** Parcels along a drive *)

Lemma walkb_walk graph a l : walkb graph a l = true → walk graph a l.
Proof.
  revert a. induction l as [|b l IH]; intros a; simpl; [done|].
  destruct (graph !! to_key a) as [places|] eqn:Hplaces; [|done].
  intros [Hb Hl]%andb_true_iff. split; [|by apply IH].
  exists places. split; [done|]. by apply bool_decide_eq_true in Hb.
Qed.

Lemma omap_cons_eq {A B : Type} (f : A → option B) x (l : list A) :
  omap f (x :: l)
  = match f x with Some y => y :: omap f l | None => omap f l end.
Proof. reflexivity. Qed.

Lemma omap_fate_nil here (ps : list Parcel) : omap (fate here []) ps = ps.
Proof.
  induction ps as [|p ps IH]; [done|]. rewrite omap_cons_eq.
  change (fate here [] p) with (Some p). by rewrite IH.
Qed.

Lemma omap_fate_cons here d ds (ps : list Parcel) :
  omap (fate here (d :: ds)) ps
  = omap (fate d ds)
      (filter (fun p => ¬ delivered p) (relocate here d <$> ps)).
Proof.
  induction ps as [|p ps IH]; [done|].
  rewrite fmap_cons, filter_cons, omap_cons_eq, IH.
  change (fate here (d :: ds) p)
    with (if decide (delivered (relocate here d p)) then None
          else fate d ds (relocate here d p)).
  destruct (decide (delivered (relocate here d p))) as [Hd|Hd].
  - rewrite decide_False by (by intros ?). done.
  - rewrite decide_True by done. by rewrite omap_cons_eq.
Qed.

(** The parcels after a drive are the fates of the parcels before it. *)
Lemma drive_fate graph here ds ps :
  walk graph here ds →
  drive graph (mkVillageState here ps) ds
  = Ret (mkVillageState (walk_end here ds) (omap (fate here ds) ps)).
Proof.
  revert here ps. induction ds as [|d ds IH]; intros here ps.
  - intros _. cbn [drive]. by rewrite omap_fate_nil.
  - intros [Hadj Hwalk]. cbn [drive].
    rewrite (move_to_neighbour graph (mkVillageState here ps) d Hadj).
    cbn [robot_place parcels]. rewrite omap_fate_cons, walk_end_cons.
    change (mbind ?f (Ret ?x)) with (f x). by apply IH.
Qed.

(** ** The route robot finishes its task *)

Lemma countSteps_from_done {M : Type} graph fuel steps state
    (robot : VillageState → M → outcome (Action M)) mem :
  parcels state = [] →
  countSteps_from graph (S fuel) steps state robot mem = Ret steps.
Proof. intros Hnil. simpl. by rewrite Hnil. Qed.

Lemma count_tour graph itinerary n state mem steps state' :
  drive graph state (tour itinerary n mem) = Ret state' →
  parcels state' = [] →
  ∃ k, k ≤ n ∧ ∀ fuel, k < fuel →
    countSteps_from graph fuel steps state (routeRobot itinerary) mem
    = Ret (steps + k).
Proof.
  revert state mem steps. induction n as [|n IH]; intros state mem steps.
  - simpl. intros [= <-] Hnil. exists 0. split; [done|].
    intros [|fuel] ?; [lia|]. rewrite Nat.add_0_r.
    by apply countSteps_from_done.
  - destruct (decide (parcels state = [])) as [Hnil|Hne].
    + intros _ _. exists 0. split; [lia|].
      intros [|fuel] ?; [lia|]. rewrite Nat.add_0_r.
      by apply countSteps_from_done.
    + cbn [tour drive]. set (m := if bool_decide (length mem = 0) then _ else _).
      destruct (move graph state (default undefined (head m)))
        as [state1| |] eqn:Hmove; simpl; [|done..].
      intros Hdrive Hnil.
      destruct (IH state1 (drop 1 m) (S steps) Hdrive Hnil) as (k & Hk & Hcount).
      exists (S k). split; [lia|]. intros [|fuel] Hfuel; [lia|].
      simpl. rewrite bool_decide_eq_false_2
        by (by destruct (parcels state)).
      unfold routeRobot. simpl. fold m. rewrite Hmove. simpl.
      rewrite Hcount by lia. f_equal. lia.
Qed.

Lemma village_place_name v :
  village_place v → ∃ s, v = str s ∧ s ∈ village.
Proof.
  intros (s & -> & [places Hs]). exists s. split; [done|].
  apply elem_of_map_to_list in Hs. vm_compute in Hs. unfold village.
  repeat (apply elem_of_cons in Hs as [[= -> _]|Hs];
          [repeat first [apply list_elem_of_here | apply list_elem_of_further]|]).
  by apply elem_of_nil in Hs.
Qed.

Lemma two_rounds_walk :
  walk roadGraph (str "Post Office") (tour mailRoute 26 []).
Proof. apply walkb_walk. by vm_compute. Qed.

Lemma two_rounds_fate :
  Forall (fun s1 =>
    Forall (fun s2 =>
      fate (str "Post Office") (tour mailRoute 26 [])
        (mkParcel (str s1) (str s2)) = None) village) village.
Proof. apply (bool_decide_unpack _). by vm_compute. Qed.

(** X9.  In the village, started at the Post Office with an empty
    memory, the route robot finishes every task within two rounds of its
    itinerary: for any parcels whose places and addresses are places of
    the village, [countSteps] returns a number of steps that is at most
    26. *)
Theorem routeRobot_delivers (ps : list Parcel) :
  (∀ p, p ∈ ps → village_place (place p) ∧ village_place (address p)) →
  ∃ n, n ≤ 26 ∧ ∀ fuel, n < fuel →
    countSteps roadGraph fuel (mkVillageState (str "Post Office") ps)
      (routeRobot mailRoute) [] = Ret n.
Proof.
  intros Hps.
  pose proof (drive_fate roadGraph (str "Post Office") (tour mailRoute 26 []) ps
                two_rounds_walk) as Hdrive.
  assert (omap (fate (str "Post Office") (tour mailRoute 26 [])) ps = []) as Hnil.
  { clear Hdrive. induction ps as [|p ps IH]; [done|].
    rewrite omap_cons_eq.
    destruct (Hps p) as [Hplace Haddr]; [apply list_elem_of_here|].
    apply village_place_name in Hplace as (s1 & Hs1 & Hin1).
    apply village_place_name in Haddr as (s2 & Hs2 & Hin2).
    pose proof two_rounds_fate as Hall.
    rewrite Forall_forall in Hall. specialize (Hall s1 Hin1).
    rewrite Forall_forall in Hall. specialize (Hall s2 Hin2).
    destruct p as [pl ad]. simpl in Hs1, Hs2. subst pl ad. rewrite Hall.
    apply IH. intros q Hq. by apply Hps, list_elem_of_further. }
  rewrite Hnil in Hdrive.
  destruct (count_tour roadGraph mailRoute 26 _ [] 0 _ Hdrive eq_refl)
    as (k & Hk & Hcount).
  exists k. split; [done|]. intros fuel Hfuel. by apply Hcount.
Qed.

Lemma routeRobot_delivers_witness :
  ∃ n, n ≤ 26 ∧ ∀ fuel, n < fuel →
    countSteps roadGraph fuel
      (mkVillageState (str "Post Office")
         [mkParcel (str "Farm") (str "Cabin");
          mkParcel (str "Post Office") (str "Shop")])
      (routeRobot mailRoute) [] = Ret n.
Proof.
  apply (routeRobot_delivers
           [mkParcel (str "Farm") (str "Cabin");
            mkParcel (str "Post Office") (str "Shop")]).
  intros p Hp.
  repeat (apply elem_of_cons in Hp as [->|Hp];
          [split; eexists; (split; [reflexivity|]); vm_compute; by eexists|]).
  by apply elem_of_nil in Hp.
Defined.

(** ** One parcel along a drive *)

Lemma fate_cons_eq here d ds p :
  fate here (d :: ds) p
  = if decide (delivered (relocate here d p)) then None
    else fate d ds (relocate here d p).
Proof. reflexivity. Qed.

Lemma relocate_here here d p :
  place p = here → relocate here d p = mkParcel d (address p).
Proof. intros H. unfold relocate. by rewrite decide_True. Qed.

Lemma relocate_elsewhere here d p :
  place p ≠ here → relocate here d p = p.
Proof. intros H. unfold relocate. by rewrite decide_False. Qed.

Lemma fate_app here l1 l2 p :
  fate here (l1 ++ l2) p = fate here l1 p ≫= fate (walk_end here l1) l2.
Proof.
  revert here p. induction l1 as [|d l1 IH]; intros here p; [done|].
  rewrite walk_end_cons, <- app_comm_cons, !fate_cons_eq.
  destruct (decide (delivered (relocate here d p))); [done|]. apply IH.
Qed.

(** A parcel that the robot does not come to before the end of the
    drive stays as it is. *)
Lemma fate_untouched here ds p :
  place p ≠ here →
  (∀ j d, S j < length ds → ds !! j = Some d → d ≠ place p) →
  ¬ delivered p →
  fate here ds p = Some p.
Proof.
  revert here. induction ds as [|d ds IH]; intros here Hhere Hds Hp; [done|].
  rewrite fate_cons_eq, relocate_elsewhere by done.
  rewrite decide_False by done.
  destruct ds as [|d' ds]; [done|]. apply IH; [|intros j x Hj Hx|done].
  - intros Heq. by apply (Hds 0 d); [simpl; lia|done|].
  - apply (Hds (S j) x); [simpl in *; lia|done].
Qed.

(** A parcel that is where the robot starts is carried along, as long as
    the drive does not come to its address. *)
Lemma fate_carried here ds p :
  place p = here →
  ds ≠ [] →
  address p ∉ ds →
  fate here ds p = Some (mkParcel (walk_end here ds) (address p)).
Proof.
  revert here p. induction ds as [|d ds IH]; intros here p Hhere Hne Hnot; [done|].
  apply not_elem_of_cons in Hnot as [Hd Hnot].
  rewrite fate_cons_eq, relocate_here by done.
  rewrite decide_False by (unfold delivered; simpl; congruence).
  rewrite walk_end_cons. destruct ds as [|d' ds]; [done|].
  by rewrite (IH d (mkParcel d (address p))).
Qed.

(** And it is delivered when the drive then comes to its address. *)
Lemma fate_delivered here l p :
  place p = here →
  address p ∉ l →
  fate here (l ++ [address p]) p = None.
Proof.
  intros Hhere Hnot. rewrite fate_app.
  destruct l as [|d l].
  - simpl. rewrite relocate_here by done. by rewrite decide_True.
  - rewrite (fate_carried here (d :: l) p) by done. simpl.
    rewrite relocate_here by done. by rewrite decide_True.
Qed.

(** What is left of a parcel after a drive has its address, is where it
    was or at a place of the drive, and is not at its address. *)
Lemma fate_Some here ds p p' :
  fate here ds p = Some p' →
  ¬ delivered p →
  address p' = address p
  ∧ (place p' = place p ∨ place p' ∈ ds)
  ∧ ¬ delivered p'.
Proof.
  revert here p. induction ds as [|d ds IH]; intros here p.
  - intros [= <-] Hp. split_and!; [done|by left|done].
  - rewrite fate_cons_eq.
    destruct (decide (delivered (relocate here d p))) as [|Hd]; [done|].
    intros Hfate _. destruct (IH _ _ Hfate Hd) as (Haddr & Hplace & Hp').
    split_and!; [| |done].
    + rewrite Haddr. unfold relocate. by case_decide.
    + destruct Hplace as [Hplace|Hin]; [|right; by apply list_elem_of_further].
      rewrite Hplace. unfold relocate. case_decide; [|by left].
      right. apply list_elem_of_here.
Qed.

(** ** The goal-oriented robot finishes its task *)

Lemma goalOrientedRobot_memory graph state d r :
  goalOrientedRobot graph state (d :: r) = Ret (mkAction d r).
Proof. reflexivity. Qed.

(** While the parcels do not run out, the robot follows its memory to
    the end. *)
Lemma count_follow graph r here ps steps fuel n :
  walk graph here r →
  (∀ i, i < length r → omap (fate here (take i r)) ps ≠ []) →
  countSteps_from graph fuel (steps + length r)
    (mkVillageState (walk_end here r) (omap (fate here r) ps))
    (goalOrientedRobot graph) [] = Ret n →
  countSteps_from graph (length r + fuel) steps (mkVillageState here ps)
    (goalOrientedRobot graph) r = Ret n.
Proof.
  revert here ps steps. induction r as [|d r IH]; intros here ps steps.
  - intros _ _. rewrite omap_fate_nil, walk_end_nil. cbn [length].
    rewrite Nat.add_0_r. by intros.
  - intros [Hadj Hwalk] Hlive Hrest.
    change (length (d :: r) + fuel) with (S (length r + fuel)).
    cbn [countSteps_from]. rewrite goalOrientedRobot_memory.
    assert (ps ≠ []) as Hps.
    { specialize (Hlive 0). rewrite take_0, omap_fate_nil in Hlive.
      apply Hlive. simpl. lia. }
    cbn [parcels]. rewrite bool_decide_eq_false_2 by (by destruct ps).
    change (mbind ?f (Ret ?x)) with (f x). cbn [direction memory].
    rewrite (move_to_neighbour graph (mkVillageState here ps) d Hadj).
    change (mbind ?f (Ret ?x)) with (f x). cbn [robot_place parcels].
    apply IH; [done| |].
    + intros i Hi. rewrite <- omap_fate_cons.
      apply (Hlive (S i)). simpl. lia.
    + rewrite <- omap_fate_cons. rewrite walk_end_cons in Hrest.
      replace (S steps + length r) with (steps + length (d :: r))
        by (simpl; lia). done.
Qed.

(** With an empty memory the robot plans a route and starts on it. *)
Lemma count_plan graph fuel steps state r :
  r ≠ [] →
  goalOrientedRobot graph state [] = follow (Some r) →
  countSteps_from graph fuel steps state (goalOrientedRobot graph) []
  = countSteps_from graph fuel steps state (goalOrientedRobot graph) r.
Proof.
  intros Hr Hplan. destruct fuel as [|fuel]; [done|]. cbn [countSteps_from].
  rewrite Hplan. by destruct r.
Qed.

Section GoalOriented.

Variable graph : Graph.
Hypothesis graph_closed : closed graph.
Hypothesis graph_routable : routable graph.

Lemma walk_registered here l x :
  walk graph here l → x ∈ l → is_Some (graph !! to_key x) ∧ x ∈ all_places graph.
Proof.
  revert here. induction l as [|d l IH]; intros here; [by intros _ ?%elem_of_nil|].
  intros [Hadj Hwalk] [->|Hx]%elem_of_cons; [|by eapply IH].
  split; [|by eapply adjacent_all_places].
  destruct Hadj as (places & Hplaces & Hd). by eapply graph_closed.
Qed.

Lemma shortest_route_length here r to :
  shortest_route graph here r to → length r ≤ length (all_places graph).
Proof.
  intros Hshort. apply submseteq_length, NoDup_submseteq.
  - by eapply shortest_route_NoDup.
  - intros x Hx. destruct Hshort as [[Hwalk _] _].
    by destruct (walk_registered here r x Hwalk Hx).
Qed.

(** The route the robot plans between two registered places. *)
Lemma planned_route here to :
  is_Some (graph !! to_key here) → is_Some (graph !! to_key to) → here ≠ to →
  ∃ l, findRoute graph here to = Ret (Some (l ++ [to]))
    ∧ walk graph here (l ++ [to])
    ∧ (to ∉ l)
    ∧ length (l ++ [to]) ≤ length (all_places graph).
Proof.
  intros Hhere Hto Hne.
  destruct (graph_routable here to Hhere Hto Hne) as [l' Hl'].
  destruct (findRoute_spec graph here to graph_closed Hhere)
    as ([r|] & Hres & Hspec); [|by destruct (Hspec l')].
  simpl in Hspec. pose proof (shortest_route_length _ _ _ Hspec) as Hlen.
  destruct (shortest_route_ends _ _ _ _ Hspec) as [Hto' _].
  destruct Hspec as [Hleads _].
  pose proof Hleads as (l & -> & _)%leads_snoc.
  rewrite removelast_last in Hto'. exists l. split_and!; [done| |done..].
  apply Hleads.
Qed.

(** A drive along a walk keeps a task a task. *)
Lemma task_after_drive here ps r :
  walk graph here r →
  task_on graph (mkVillageState here ps) →
  task_on graph (mkVillageState (walk_end here r) (omap (fate here r) ps)).
Proof.
  intros Hwalk [Hhere Hps]. split.
  - simpl. destruct r as [|d r _] using rev_ind; [done|].
    rewrite walk_end_snoc.
    apply (walk_registered here (r ++ [d]) d Hwalk).
    apply elem_of_app. right. apply list_elem_of_here.
  - simpl. intros p' (p & Hp & Hfate)%list_elem_of_omap.
    destruct (Hps p Hp) as (Hplace & Haddr & Hund).
    destruct (fate_Some _ _ _ _ Hfate Hund) as (Haddr' & Hplace' & Hund').
    split_and!; [|by rewrite Haddr'|done].
    destruct Hplace' as [->|Hin]; [done|].
    by destruct (walk_registered here r _ Hwalk Hin).
Qed.

Lemma length_omap_le {A B : Type} (f : A → option B) (l : list A) :
  length (omap f l) ≤ length l.
Proof.
  induction l as [|x l IH]; [done|]. rewrite omap_cons_eq.
  destruct (f x); simpl; lia.
Qed.

(** The leg that delivers the first parcel, when the robot is where that
    parcel is. *)
Lemma deliver_first n p0 rest here steps :
  delivers_within graph n →
  length rest ≤ n →
  task_on graph (mkVillageState here (p0 :: rest)) →
  place p0 = here →
  ∃ k, k ≤ length (all_places graph)
           + 2 * length (all_places graph) * length rest
    ∧ countSteps_from graph (S k) steps (mkVillageState here (p0 :: rest))
        (goalOrientedRobot graph) [] = Ret (steps + k).
Proof.
  intros IH Hrest Htask Hp0. pose proof Htask as [Hhere Hps]. simpl in Hhere, Hps.
  destruct (Hps p0) as (_ & Haddr & Hund); [apply list_elem_of_here|].
  assert (here ≠ address p0) as Hne by (unfold delivered in Hund; congruence).
  destruct (planned_route here (address p0) Hhere Haddr Hne)
    as (l & Hfind & Hwalk & Hnot & Hlen).
  pose proof (task_after_drive here (p0 :: rest) _ Hwalk Htask) as Htask'.
  rewrite omap_cons_eq, (fate_delivered here l p0 Hp0 Hnot) in Htask'.
  rewrite walk_end_snoc in Htask'.
  destruct (IH (omap (fate here (l ++ [address p0])) rest) (address p0)
              (steps + length (l ++ [address p0]))) as (k & Hk & Hcount);
    [etrans; [apply length_omap_le|done]|done|].
  exists (length (l ++ [address p0]) + k). split.
  { pose proof (length_omap_le (fate here (l ++ [address p0])) rest). nia. }
  rewrite (count_plan graph _ _ _ (l ++ [address p0])); [|by destruct l|].
  - rewrite <- Nat.add_succ_r, Nat.add_assoc.
    apply count_follow; [done| |].
    + intros i Hi. rewrite omap_cons_eq.
      rewrite length_app in Hi. simpl in Hi.
      rewrite take_app_le by lia.
      destruct i as [|i]; [done|].
      rewrite (fate_carried here (take (S i) l) p0); [done..| |].
      * destruct l; simpl in *; [lia|done].
      * intros Hin. apply Hnot. by eapply subseteq_take.
    + by rewrite omap_cons_eq, (fate_delivered here l p0 Hp0 Hnot), walk_end_snoc.
  - unfold goalOrientedRobot. simpl.
    rewrite decide_False by (by intros ?). by rewrite Hfind.
Qed.

Lemma goal_delivers_within n : delivers_within graph n.
Proof.
  induction n as [|n IH]; intros ps here steps Hlen Htask.
  - destruct ps; [|simpl in Hlen; lia]. exists 0. split; [lia|].
    by rewrite Nat.add_0_r.
  - destruct ps as [|p0 rest].
    { exists 0. split; [lia|]. by rewrite Nat.add_0_r. }
    simpl in Hlen.
    destruct (decide (place p0 = here)) as [Hp0|Hp0].
    { destruct (deliver_first n p0 rest here steps IH) as (k & Hk & Hcount);
        [lia|done..|].
      exists k. split; [simpl; lia|done]. }
    pose proof Htask as [Hhere Hps]. simpl in Hhere, Hps.
    destruct (Hps p0) as (Hplace & _ & Hund); [apply list_elem_of_here|].
    destruct (planned_route here (place p0) Hhere Hplace)
      as (l & Hfind & Hwalk & Hnot & Hroute); [done|].
    assert (∀ i, fate here (take i (l ++ [place p0])) p0 = Some p0) as Hfate.
    { intros i. apply fate_untouched; [done| |done].
      intros j d Hj Hd Heq. apply Hnot. rewrite <- Heq.
      rewrite length_take, length_app in Hj. simpl in Hj.
      rewrite lookup_take_lt in Hd by lia.
      rewrite lookup_app_l in Hd by lia. by eapply list_elem_of_lookup_2. }
    pose proof (task_after_drive here (p0 :: rest) _ Hwalk Htask) as Htask'.
    rewrite omap_cons_eq, walk_end_snoc in Htask'.
    pose proof (Hfate (length (l ++ [place p0]))) as Hfull.
    rewrite take_ge in Hfull by done. rewrite Hfull in Htask'.
    destruct (deliver_first n p0 (omap (fate here (l ++ [place p0])) rest)
                (place p0) (steps + length (l ++ [place p0])) IH)
      as (k & Hk & Hcount); [|done..|].
    { etrans; [apply length_omap_le|lia]. }
    exists (length (l ++ [place p0]) + k). split.
    { pose proof (length_omap_le (fate here (l ++ [place p0])) rest).
      simpl. nia. }
    rewrite (count_plan graph _ _ _ (l ++ [place p0])); [|by destruct l|].
    + rewrite <- Nat.add_succ_r, Nat.add_assoc.
      apply count_follow; [done| |].
      * intros i _. by rewrite omap_cons_eq, Hfate.
      * by rewrite omap_cons_eq, Hfull, walk_end_snoc.
    + unfold goalOrientedRobot. simpl.
      rewrite decide_True by done. by rewrite Hfind.
Qed.

End GoalOriented.

(** More budget does not change the count. *)
Lemma countSteps_from_more {M : Type} graph fuel fuel' steps state
    (robot : VillageState → M → outcome (Action M)) mem n :
  fuel ≤ fuel' →
  countSteps_from graph fuel steps state robot mem = Ret n →
  countSteps_from graph fuel' steps state robot mem = Ret n.
Proof.
  revert fuel' steps state mem.
  induction fuel as [|fuel IH]; intros fuel' steps state mem Hle; [done|].
  destruct fuel' as [|fuel']; [lia|]. simpl. case_bool_decide; [done|].
  destruct (robot state mem) as [action| |]; simpl; [|done..].
  destruct (move graph state (direction action)) as [state'| |]; simpl; [|done..].
  apply IH. lia.
Qed.

(** X10.  On a graph where every listed place is registered and every
    two registered places are joined by a route, the goal-oriented robot
    finishes every task: started with an empty memory on a state whose
    places and addresses are registered and whose parcels are not at their
    addresses, [countSteps] returns, after at most twice as many steps per
    parcel as the graph lists places. *)
Theorem goalOrientedRobot_delivers (graph : Graph) (state : VillageState) :
  closed graph →
  routable graph →
  task_on graph state →
  ∃ n, n ≤ 2 * length (all_places graph) * length (parcels state)
    ∧ ∀ fuel, n < fuel →
        countSteps graph fuel state (goalOrientedRobot graph) [] = Ret n.
Proof.
  intros Hclosed Hroutable Htask. destruct state as [here ps].
  destruct (goal_delivers_within graph Hclosed Hroutable (length ps) ps here 0)
    as (k & Hk & Hcount); [done..|].
  exists k. split; [done|]. intros fuel Hfuel.
  eapply countSteps_from_more; [|done]. lia.
Qed.

Lemma finds_route_leads (graph : Graph) (from to : value) :
  finds_route graph from to = true → ∃ r, leads graph from r to.
Proof.
  unfold finds_route. intros Hroute.
  destruct (findRoute graph from to) as [[r|]| |] eqn:Hr;
    try discriminate Hroute.
  exists r. apply findRoute_Some_shortest in Hr as [Hr _]. exact Hr.
Qed.

Lemma roadGraph_routes :
  forallb (fun s1 =>
    forallb (fun s2 =>
      String.eqb s1 s2 || finds_route roadGraph (str s1) (str s2)) village)
    village = true.
Proof. by vm_compute. Qed.

(** The village is in one piece. *)
Lemma roadGraph_routable : routable roadGraph.
Proof.
  intros a b Ha Hb Hne.
  assert (∀ v, is_Some (roadGraph !! to_key v) → ∃ s, v = str s ∧ s ∈ village)
    as Hname.
  { intros [|s] Hv; [vm_compute in Hv; by destruct Hv|].
    apply village_place_name. by exists s. }
  destruct (Hname a Ha) as (s1 & -> & Hs1).
  destruct (Hname b Hb) as (s2 & -> & Hs2).
  pose proof roadGraph_routes as Hall.
  rewrite forallb_forall in Hall.
  apply list_elem_of_In, Hall in Hs1. rewrite forallb_forall in Hs1.
  apply list_elem_of_In, Hs1, orb_true_iff in Hs2 as [Heq|Hroute].
  { apply String.eqb_eq in Heq as ->. done. }
  exact (finds_route_leads _ _ _ Hroute).
Qed.

Lemma goalOrientedRobot_delivers_witness :
  ∃ n, n ≤ 2 * length (all_places roadGraph) * 2
    ∧ ∀ fuel, n < fuel →
        countSteps roadGraph fuel
          (mkVillageState (str "Post Office")
             [mkParcel (str "Cabin") (str "Farm");
              mkParcel (str "Shop") (str "Post Office")])
          (goalOrientedRobot roadGraph) [] = Ret n.
Proof.
  apply (goalOrientedRobot_delivers roadGraph
           (mkVillageState (str "Post Office")
              [mkParcel (str "Cabin") (str "Farm");
               mkParcel (str "Shop") (str "Post Office")])).
  - apply buildGraph_closed.
  - apply roadGraph_routable.
  - split; [vm_compute; by eexists|]. intros p Hp. simpl in Hp.
    repeat (apply elem_of_cons in Hp as [->|Hp];
            [split_and!; [vm_compute; by eexists..|done]|]).
    by apply elem_of_nil in Hp.
Defined.

(** ** The lazy robot against the goal-oriented robot *)

(** On a task every parcel's leg has a route, which [findRoute] finds. *)
Lemma leg_route graph here p :
  closed graph → routable graph →
  is_Some (graph !! to_key here) →
  is_Some (graph !! to_key (place p)) →
  is_Some (graph !! to_key (address p)) →
  ¬ delivered p →
  ∃ l, findRoute graph here (fst (leg here p))
       = Ret (Some (l ++ [fst (leg here p)]))
     ∧ walk graph here (l ++ [fst (leg here p)]).
Proof.
  intros Hclosed Hroutable Hhere Hplace Haddress Hnot.
  destruct (planned_route graph Hclosed Hroutable here (fst (leg here p)))
    as (l & Hl & Hwalk & _); [done| | |by exists l].
  - unfold leg. by destruct (decide (place p ≠ here)).
  - unfold leg. destruct (decide (place p ≠ here)) as [Hne|Heq]; simpl.
    + congruence.
    + apply dec_stable in Heq. unfold delivered in Hnot. congruence.
Qed.

(** A candidate that scores no less has a route that is no longer: half
    a point never makes up for a road. *)
Lemma score_of_length c c' r r' :
  cand_route c = Some r → cand_route c' = Some r' →
  (score_of c' <= score_of c)%Q → length r ≤ length r'.
Proof.
  unfold score_of. intros -> ->. simpl.
  destruct (pickUp c), (pickUp c');
    unfold Qle, Qminus, Qplus, Qopp, inject_Z; simpl; lia.
Qed.

(** X11.  On a task with at least one parcel, on a closed graph in one
    piece, both robots decide from an empty memory without an error; the
    lazy robot's direction is a neighbour of the robot's place, what it
    remembers continues from there along roads, and its plan is never
    longer than the plan of the goal-oriented robot. *)
Theorem lazyRobot_no_longer (graph : Graph) (state : VillageState) :
  closed graph → routable graph → task_on graph state →
  parcels state ≠ [] →
  ∃ a b,
    lazyRobot graph state [] = Ret a
    ∧ goalOrientedRobot graph state [] = Ret b
    ∧ adjacent graph (robot_place state) (direction a)
    ∧ walk graph (direction a) (memory a)
    ∧ length (memory a) ≤ length (memory b).
Proof.
  intros Hclosed Hroutable [Hhere Hps] Hne.
  assert (∀ p, p ∈ parcels state →
            ∃ l, findRoute graph (robot_place state)
                   (fst (leg (robot_place state) p))
                 = Ret (Some (l ++ [fst (leg (robot_place state) p)]))
               ∧ walk graph (robot_place state)
                   (l ++ [fst (leg (robot_place state) p)])) as Hlegs.
  { intros p Hp. destruct (Hps p Hp) as (? & ? & ?). by apply leg_route. }
  destruct (candidates_exist graph (robot_place state) (parcels state))
    as [cands Hcands].
  { intros p Hp. destruct (Hlegs p Hp) as (l & Hl & _). by eexists. }
  assert (mapM (candidate graph (robot_place state)) (parcels state) = Ret cands)
    as Hmap.
  { apply mapM_Ret. eapply Forall2_impl; [done|].
    intros p c (r & Hr & ->). by apply candidate_leg. }
  assert (Forall (fun c => is_Some (cand_route c)) cands) as Hall.
  { apply Forall_forall. intros c [j Hj]%list_elem_of_lookup_1.
    destruct (Forall2_lookup_r _ _ _ _ _ Hcands Hj) as (p & _ & r & _ & ->).
    by eexists. }
  assert (cands ≠ []) as Hcne.
  { intros ->. apply Forall2_nil_inv_r in Hcands. done. }
  destruct (reduce_better cands Hcne Hall) as (i & c & Hred & Hi & Hmax & _).
  destruct (Forall2_lookup_r _ _ _ _ _ Hcands Hi) as (p & Hp & r & Hr & ->).
  destruct (Hlegs p) as (l & Hl & Hwalk); [by eapply list_elem_of_lookup_2|].
  assert (r = l ++ [fst (leg (robot_place state) p)]) as -> by congruence.
  assert (∃ p0, parcels state !! 0 = Some p0) as [p0 Hp0].
  { destruct (parcels state) as [|p0 ?]; [done|]. by exists p0. }
  destruct (Forall2_lookup_l _ _ _ _ _ Hcands Hp0) as (c0 & Hc0 & r0 & Hr0 & ->).
  pose proof (Hmax 0 _ Hc0) as Hscore.
  eapply score_of_length in Hscore; [|done..].
  exists (mkAction (default undefined (head (l ++ [fst (leg (robot_place state) p)])))
            (drop 1 (l ++ [fst (leg (robot_place state) p)]))),
         (mkAction (default undefined (head r0)) (drop 1 r0)).
  split_and!.
  - unfold lazyRobot. simpl. rewrite Hmap. simpl. rewrite Hred. done.
  - unfold goalOrientedRobot. simpl. rewrite Hp0.
    unfold leg in Hr0.
    destruct (decide (place p0 ≠ robot_place state)); simpl in Hr0;
      by rewrite Hr0.
  - destruct l as [|x l]; simpl in *; tauto.
  - destruct l as [|x l]; simpl in *; [done|]. rewrite drop_0. tauto.
  - simpl. rewrite !length_drop. lia.
Qed.

Lemma lazyRobot_no_longer_witness :
  ∃ a b,
    lazyRobot roadGraph
      (mkVillageState (str "Post Office")
         [mkParcel (str "Cabin") (str "Farm");
          mkParcel (str "Shop") (str "Post Office")]) [] = Ret a
    ∧ goalOrientedRobot roadGraph
        (mkVillageState (str "Post Office")
           [mkParcel (str "Cabin") (str "Farm");
            mkParcel (str "Shop") (str "Post Office")]) [] = Ret b
    ∧ adjacent roadGraph (str "Post Office") (direction a)
    ∧ walk roadGraph (direction a) (memory a)
    ∧ length (memory a) ≤ length (memory b).
Proof.
  apply (lazyRobot_no_longer roadGraph
           (mkVillageState (str "Post Office")
              [mkParcel (str "Cabin") (str "Farm");
               mkParcel (str "Shop") (str "Post Office")])).
  - apply buildGraph_closed.
  - apply roadGraph_routable.
  - split; [vm_compute; by eexists|]. intros p Hp. simpl in Hp.
    repeat (apply elem_of_cons in Hp as [->|Hp];
            [split_and!; [vm_compute; by eexists..|done]|]).
    by apply elem_of_nil in Hp.
  - done.
Defined.

(** ** [findRoute]: there and back *)

(** On a graph whose roads go both ways, a route can be walked back. *)
Lemma leads_back edges l :
  Forall well_formed edges →
  ∀ a b, leads (buildGraph edges) (str a) l (str b) →
  ∃ l', leads (buildGraph edges) (str b) l' (str a) ∧ length l' = length l.
Proof.
  intros Hwf. induction l as [|x l IH]; intros a b [Hwalk Hlast]; [done|].
  destruct Hwalk as [Hx Hwalk].
  destruct (buildGraph_strings edges _ _ Hwf Hx) as [s ->].
  apply (listed_back edges _ _ Hwf) in Hx.
  destruct l as [|y l].
  - injection Hlast as [= ->]. exists [str a]. by split; [split|].
  - rewrite last_cons_cons in Hlast.
    destruct (IH s b) as (l' & [Hwalk' Hlast'] & Hlen); [done|].
    exists (l' ++ [str a]). split; [split|].
    + apply walk_snoc. split; [done|]. unfold walk_end. by rewrite Hlast'.
    + by rewrite last_snoc.
    + rewrite length_app. simpl in *. lia.
Qed.

(** X12.  In the graph built from descriptors that all have a dash,
    distance is the same in both directions: where [findRoute] returns a
    route from [a] to [b], it returns a route of the same length from [b]
    to [a]. *)
Theorem findRoute_back (edges : list string) (a b : string) (r : list value) :
  Forall well_formed edges →
  findRoute (buildGraph edges) (str a) (str b) = Ret (Some r) →
  ∃ r', findRoute (buildGraph edges) (str b) (str a) = Ret (Some r')
      ∧ length r' = length r.
Proof.
  intros Hwf [Hleads Hmin]%findRoute_Some_shortest.
  destruct (leads_back edges r Hwf a b Hleads) as (l & Hl & Hlen).
  assert (is_Some (buildGraph edges !! to_key (str b))) as Hb.
  { destruct Hl as [Hwalk Hlast]. destruct l as [|x l]; [done|].
    destruct Hwalk as [(places & Hplaces & _) _]. by exists places. }
  destruct (findRoute_spec (buildGraph edges) (str b) (str a)
              (buildGraph_closed edges) Hb) as ([r'|] & Hr' & Hspec).
  - exists r'. split; [done|]. destruct Hspec as [Hleads' Hmin'].
    destruct (leads_back edges r' Hwf b a Hleads') as (l' & Hl' & Hlen').
    apply Hmin in Hl'. apply Hmin' in Hl. lia.
  - by destruct (Hspec l).
Qed.

Lemma findRoute_back_witness :
  ∃ r', findRoute roadGraph (str "Farm") (str "Cabin") = Ret (Some r')
      ∧ length r' = 4.
Proof.
  apply (findRoute_back roads "Cabin" "Farm"
           [str "Alice's House"; str "Post Office"; str "Marketplace";
            str "Farm"]).
  - unfold roads, well_formed.
    repeat (apply Forall_cons; split; [vm_compute; lia|]).
    apply Forall_nil_2.
  - by vm_compute.
Defined.

(** ** What a sequence of moves does to the parcels *)

Lemma move_parcels graph state d state' :
  move graph state d = Ret state' →
  (robot_place state' = robot_place state ∨ robot_place state' = d)
  ∧ length (parcels state') ≤ length (parcels state)
  ∧ ∀ p', p' ∈ parcels state' →
      ∃ p, p ∈ parcels state
        ∧ address p' = address p
        ∧ (place p' = place p ∨ place p' = d).
Proof.
  destruct (graph !! to_key (robot_place state)) as [places|] eqn:Hplaces;
    [|unfold move; by rewrite Hplaces].
  rewrite (move_unfold _ _ _ places Hplaces).
  case_bool_decide; intros [= <-].
  - split_and!; [by right|..].
    + simpl. etrans; [apply length_filter|]. by rewrite length_fmap.
    + intros p' [_ (p & -> & Hp)%list_elem_of_fmap]%list_elem_of_filter.
      exists p. unfold relocate. case_decide; simpl; auto.
  - split_and!; [by left|done|]. intros p' Hp'. exists p'. auto.
Qed.

(** X13.  However the robot is sent around, to neighbours or not, the
    moves invent no parcel and change no address: every parcel of the
    state reached comes from a parcel of the state at the start, with the
    same address, and is where that one was or at a place the robot was
    sent to; there are no more parcels than at the start; and the robot
    is where it was or at a place it was sent to. *)
Theorem drive_parcels (graph : Graph) (state : VillageState)
    (route : list value) (state' : VillageState) :
  drive graph state route = Ret state' →
  (robot_place state' = robot_place state ∨ robot_place state' ∈ route)
  ∧ length (parcels state') ≤ length (parcels state)
  ∧ ∀ p', p' ∈ parcels state' →
      ∃ p, p ∈ parcels state
        ∧ address p' = address p
        ∧ (place p' = place p ∨ place p' ∈ route).
Proof.
  revert state. induction route as [|d route IH]; intros state.
  - intros [= <-]. split_and!; [by left|done|]. intros p' Hp'. exists p'. auto.
  - cbn [drive]. destruct (move graph state d) as [mid| |] eqn:Hmove; [|done..].
    change (mbind ?f (Ret ?x)) with (f x). intros Hdrive.
    destruct (move_parcels _ _ _ _ Hmove) as (Hrobot & Hlen & Hparcels).
    destruct (IH _ Hdrive) as (Hrobot' & Hlen' & Hparcels').
    split_and!.
    + destruct Hrobot' as [->|?]; [|right; by apply list_elem_of_further].
      destruct Hrobot as [->| ->]; [by left|right; apply list_elem_of_here].
    + lia.
    + intros p' Hp'.
      destruct (Hparcels' p' Hp') as (q & Hq & Haddr & Hplace).
      destruct (Hparcels q Hq) as (p & Hp & Haddr' & Hplace').
      exists p. split_and!; [done|congruence|].
      destruct Hplace as [->|?]; [|right; by apply list_elem_of_further].
      destruct Hplace' as [->| ->]; [by left|right; apply list_elem_of_here].
Qed.

Lemma drive_parcels_witness :
  (str "Marketplace" = str "Post Office"
   ∨ str "Marketplace" ∈ [str "Marketplace"; str "Cabin"])
  ∧ 2 ≤ 3
  ∧ ∀ p', p' ∈ [mkParcel (str "Marketplace") (str "Farm");
                mkParcel (str "Cabin") (str "Shop")] →
      ∃ p, p ∈ [mkParcel (str "Post Office") (str "Farm");
                mkParcel (str "Post Office") (str "Marketplace");
                mkParcel (str "Cabin") (str "Shop")]
        ∧ address p' = address p
        ∧ (place p' = place p
           ∨ place p' ∈ [str "Marketplace"; str "Cabin"]).
Proof.
  apply (drive_parcels roadGraph
           (mkVillageState (str "Post Office")
              [mkParcel (str "Post Office") (str "Farm");
               mkParcel (str "Post Office") (str "Marketplace");
               mkParcel (str "Cabin") (str "Shop")])
           [str "Marketplace"; str "Cabin"]
           (mkVillageState (str "Marketplace")
              [mkParcel (str "Marketplace") (str "Farm");
               mkParcel (str "Cabin") (str "Shop")])).
  by vm_compute.
Defined.

(** ** The lazy robot finishes its task *)

Lemma lazyRobot_memory graph state d r :
  lazyRobot graph state (d :: r) = Ret (mkAction d r).
Proof. reflexivity. Qed.

(** A robot that follows its memory, while the parcels do not run out,
    follows it to the end. *)
Lemma count_follow_memory graph
    (robot : VillageState → list value → outcome (Action (list value)))
    r here ps steps fuel n :
  (∀ state d r', robot state (d :: r') = Ret (mkAction d r')) →
  walk graph here r →
  (∀ i, i < length r → omap (fate here (take i r)) ps ≠ []) →
  countSteps_from graph fuel (steps + length r)
    (mkVillageState (walk_end here r) (omap (fate here r) ps)) robot [] = Ret n →
  countSteps_from graph (length r + fuel) steps (mkVillageState here ps)
    robot r = Ret n.
Proof.
  intros Hmem. revert here ps steps.
  induction r as [|d r IH]; intros here ps steps.
  - intros _ _. rewrite omap_fate_nil, walk_end_nil. cbn [length].
    rewrite Nat.add_0_r. by intros.
  - intros [Hadj Hwalk] Hlive Hrest.
    change (length (d :: r) + fuel) with (S (length r + fuel)).
    cbn [countSteps_from]. rewrite Hmem.
    assert (ps ≠ []) as Hps.
    { specialize (Hlive 0). rewrite take_0, omap_fate_nil in Hlive.
      apply Hlive. simpl. lia. }
    cbn [parcels]. rewrite bool_decide_eq_false_2 by (by destruct ps).
    change (mbind ?f (Ret ?x)) with (f x). cbn [direction memory].
    rewrite (move_to_neighbour graph (mkVillageState here ps) d Hadj).
    change (mbind ?f (Ret ?x)) with (f x). cbn [robot_place parcels].
    apply IH; [done| |].
    + intros i Hi. rewrite <- omap_fate_cons.
      apply (Hlive (S i)). simpl. lia.
    + rewrite <- omap_fate_cons. rewrite walk_end_cons in Hrest.
      replace (S steps + length r) with (steps + length (d :: r))
        by (simpl; lia). done.
Qed.

Lemma count_plan_memory graph
    (robot : VillageState → list value → outcome (Action (list value)))
    fuel steps state r :
  (∀ state d r', robot state (d :: r') = Ret (mkAction d r')) →
  r ≠ [] →
  robot state [] = follow (Some r) →
  countSteps_from graph fuel steps state robot []
  = countSteps_from graph fuel steps state robot r.
Proof.
  intros Hmem Hr Hplan. destruct fuel as [|fuel]; [done|].
  cbn [countSteps_from]. rewrite Hplan.
  destruct r as [|d r]; [done|]. by rewrite Hmem.
Qed.

Lemma load_bounds here p : 1 ≤ load here p ≤ 2.
Proof. unfold load. case_decide; lia. Qed.

Lemma effort_length here ps : effort here ps ≤ 2 * length ps.
Proof.
  induction ps as [|p ps IH]; [done|]. simpl.
  pose proof (load_bounds here p). lia.
Qed.

(** A parcel that is where the robot starts is delivered on the way or
    is where the robot ends. *)
Lemma fate_here here r p :
  place p = here → r ≠ [] →
  fate here r p = None
  ∨ fate here r p = Some (mkParcel (walk_end here r) (address p)).
Proof.
  revert here p. induction r as [|d r IH]; intros here p Hhere Hne; [done|].
  rewrite fate_cons_eq, relocate_here by done.
  destruct (decide (delivered (mkParcel d (address p)))); [by left|].
  rewrite walk_end_cons. destruct r as [|d' r]; [by right|].
  by apply (IH d (mkParcel d (address p))).
Qed.

(** What one parcel asks for after a drive. *)
Lemma load_after here r p :
  r ≠ [] →
  match fate here r p with
  | None => 0
  | Some p' => load (walk_end here r) p'
  end ≤ load here p.
Proof.
  intros Hne. pose proof (load_bounds here p) as Hp.
  destruct (fate here r p) as [p'|] eqn:Hfate; [|lia].
  pose proof (load_bounds (walk_end here r) p') as Hp'.
  unfold load at 2. case_decide as Hhere; [|lia].
  destruct (fate_here here r p Hhere Hne) as [Hnone|Hsome]; [congruence|].
  rewrite Hfate in Hsome. injection Hsome as ->.
  unfold load. by rewrite decide_True.
Qed.

Lemma effort_after here r ps :
  r ≠ [] →
  effort (walk_end here r) (omap (fate here r) ps) ≤ effort here ps.
Proof.
  intros Hne. induction ps as [|p ps IH]; [done|].
  rewrite omap_cons_eq. pose proof (load_after here r p Hne) as Hp.
  destruct (fate here r p); simpl; lia.
Qed.

(** A drive that serves one of the parcels leaves less to do. *)
Lemma effort_served here r ps p :
  r ≠ [] →
  p ∈ ps →
  match fate here r p with
  | None => 0
  | Some p' => load (walk_end here r) p'
  end < load here p →
  effort (walk_end here r) (omap (fate here r) ps) < effort here ps.
Proof.
  intros Hne Hp Hserved. induction ps as [|q ps IH]; [by apply elem_of_nil in Hp|].
  rewrite omap_cons_eq. apply elem_of_cons in Hp as [<-|Hp].
  - pose proof (effort_after here r ps Hne).
    destruct (fate here r p); simpl; lia.
  - pose proof (load_after here r q Hne). specialize (IH Hp).
    destruct (fate here r q); simpl; lia.
Qed.

Lemma omap_live {A B : Type} (f : A → option B) (l : list A) x :
  x ∈ l → is_Some (f x) → omap f l ≠ [].
Proof.
  intros Hx [y Hy] Hnil.
  assert (y ∈ omap f l) as Hin by (apply list_elem_of_omap; by exists x).
  rewrite Hnil in Hin. by apply elem_of_nil in Hin.
Qed.

Section Lazy.

Variable graph : Graph.
Hypothesis graph_closed : closed graph.
Hypothesis graph_routable : routable graph.

(** The plan of the lazy robot: a shortest route for the leg of one of
    the parcels. *)
Lemma lazyRobot_plan here ps :
  task_on graph (mkVillageState here ps) →
  ps ≠ [] →
  ∃ p l,
    p ∈ ps
    ∧ lazyRobot graph (mkVillageState here ps) []
      = follow (Some (l ++ [fst (leg here p)]))
    ∧ walk graph here (l ++ [fst (leg here p)])
    ∧ (fst (leg here p) ∉ l)
    ∧ length (l ++ [fst (leg here p)]) ≤ length (all_places graph).
Proof.
  intros [Hhere Hps] Hne. simpl in Hhere, Hps.
  assert (∀ p, p ∈ ps →
            ∃ l, findRoute graph here (fst (leg here p))
                 = Ret (Some (l ++ [fst (leg here p)]))
               ∧ walk graph here (l ++ [fst (leg here p)])
               ∧ (fst (leg here p) ∉ l)
               ∧ length (l ++ [fst (leg here p)]) ≤ length (all_places graph))
    as Hlegs.
  { intros p Hp. destruct (Hps p Hp) as (Hplace & Haddr & Hund).
    apply (planned_route graph graph_closed graph_routable); [done|..].
    - unfold leg. by destruct (decide (place p ≠ here)).
    - unfold leg. destruct (decide (place p ≠ here)) as [?|Heq]; simpl.
      + congruence.
      + apply dec_stable in Heq. unfold delivered in Hund. congruence. }
  destruct (candidates_exist graph here ps) as [cands Hcands].
  { intros p Hp. destruct (Hlegs p Hp) as (l & Hl & _). by eexists. }
  assert (mapM (candidate graph here) ps = Ret cands) as Hmap.
  { apply mapM_Ret. eapply Forall2_impl; [done|].
    intros p c (r & Hr & ->). by apply candidate_leg. }
  assert (Forall (fun c => is_Some (cand_route c)) cands) as Hall.
  { apply Forall_forall. intros c [j Hj]%list_elem_of_lookup_1.
    destruct (Forall2_lookup_r _ _ _ _ _ Hcands Hj) as (p & _ & r & _ & ->).
    by eexists. }
  assert (cands ≠ []) as Hcne.
  { intros ->. by apply Forall2_nil_inv_r in Hcands. }
  destruct (reduce_better cands Hcne Hall) as (i & c & Hred & Hi & _).
  destruct (Forall2_lookup_r _ _ _ _ _ Hcands Hi) as (p & Hp & r & Hr & ->).
  apply list_elem_of_lookup_2 in Hp.
  destruct (Hlegs p Hp) as (l & Hl & Hwalk & Hnot & Hlen).
  exists p, l. split_and!; [done| |done..].
  unfold lazyRobot. simpl. rewrite Hmap. simpl. rewrite Hred. simpl. congruence.
Qed.

Lemma lazy_delivers_within m :
  ∀ ps here steps,
    effort here ps ≤ m →
    task_on graph (mkVillageState here ps) →
    ∃ k, k ≤ length (all_places graph) * effort here ps
      ∧ countSteps_from graph (S k) steps (mkVillageState here ps)
          (lazyRobot graph) [] = Ret (steps + k).
Proof.
  induction m as [|m IH]; intros ps here steps Hm Htask.
  - destruct ps as [|p ps].
    + exists 0. split; [lia|]. by rewrite Nat.add_0_r.
    + simpl in Hm. pose proof (load_bounds here p). lia.
  - destruct (decide (ps = [])) as [->|Hne].
    { exists 0. split; [lia|]. by rewrite Nat.add_0_r. }
    destruct (lazyRobot_plan here ps Htask Hne)
      as (p & l & Hp & Hplan & Hwalk & Hnot & Hlen).
    pose proof Htask as [Hhere Hps]. simpl in Hhere, Hps.
    destruct (Hps p Hp) as (_ & _ & Hund).
    remember (fst (leg here p)) as to eqn:Hleg.
    assert ((place p ≠ here ∧ to = place p) ∨ (place p = here ∧ to = address p))
      as Hcases.
    { rewrite Hleg. unfold leg.
      destruct (decide (place p ≠ here)) as [?|?%dec_stable]; simpl; auto. }
    clear Hleg.
    assert ((∀ i, i < length (l ++ [to]) →
               is_Some (fate here (take i (l ++ [to])) p))
            ∧ match fate here (l ++ [to]) p with
              | None => 0
              | Some p' => load (walk_end here (l ++ [to])) p'
              end < load here p) as [Hlive Hserved].
    { destruct Hcases as [[Hplace ->]|[Hplace ->]].
      - assert (∀ i, fate here (take i (l ++ [place p])) p = Some p) as Hfate.
        { intros i. apply fate_untouched; [done| |done].
          intros j d Hj Hd Heq. apply Hnot. rewrite <- Heq.
          rewrite length_take, length_app in Hj. simpl in Hj.
          rewrite lookup_take_lt in Hd by lia.
          rewrite lookup_app_l in Hd by lia. by eapply list_elem_of_lookup_2. }
        split; [intros i _; by rewrite Hfate|].
        pose proof (Hfate (length (l ++ [place p]))) as Hfull.
        rewrite take_ge in Hfull by done. rewrite Hfull, walk_end_snoc.
        unfold load. rewrite decide_True by done.
        rewrite decide_False by done. lia.
      - split.
        + intros i Hi. rewrite length_app in Hi. simpl in Hi.
          rewrite take_app_le by lia.
          destruct i as [|i]; [done|].
          rewrite (fate_carried here (take (S i) l) p); [done..| |].
          * destruct l; simpl in *; [lia|done].
          * intros Hin. apply Hnot. by eapply subseteq_take.
        + rewrite (fate_delivered here l p Hplace Hnot).
          pose proof (load_bounds here p). lia. }
    assert (l ++ [to] ≠ []) as Hroute by (by destruct l).
    pose proof (effort_served here _ ps p Hroute Hp Hserved) as Hless.
    pose proof (task_after_drive graph graph_closed here ps _ Hwalk Htask)
      as Htask'.
    destruct (IH (omap (fate here (l ++ [to])) ps) (walk_end here (l ++ [to]))
                (steps + length (l ++ [to]))) as (k & Hk & Hcount);
      [lia|done|].
    exists (length (l ++ [to]) + k). split; [nia|].
    rewrite (count_plan_memory graph _ _ _ _ (l ++ [to]));
      [|apply lazyRobot_memory|done..].
    rewrite <- Nat.add_succ_r, Nat.add_assoc.
    apply count_follow_memory; [apply lazyRobot_memory|done| |done].
    intros i Hi. eapply omap_live; [done|]. by apply Hlive.
Qed.

End Lazy.

(** X14.  On a graph where every listed place is registered and every
    two registered places are joined by a route, the lazy robot finishes
    every task: started with an empty memory on a state whose places and
    addresses are registered and whose parcels are not at their addresses,
    [countSteps] returns, after at most twice as many steps per parcel as
    the graph lists places. *)
Theorem lazyRobot_delivers (graph : Graph) (state : VillageState) :
  closed graph →
  routable graph →
  task_on graph state →
  ∃ n, n ≤ 2 * length (all_places graph) * length (parcels state)
    ∧ ∀ fuel, n < fuel →
        countSteps graph fuel state (lazyRobot graph) [] = Ret n.
Proof.
  intros Hclosed Hroutable Htask. destruct state as [here ps].
  destruct (lazy_delivers_within graph Hclosed Hroutable (effort here ps)
              ps here 0) as (k & Hk & Hcount); [done..|].
  exists k. split.
  - pose proof (effort_length here ps). simpl. nia.
  - intros fuel Hfuel. eapply countSteps_from_more; [|done]. lia.
Qed.

Lemma lazyRobot_delivers_witness :
  ∃ n, n ≤ 2 * length (all_places roadGraph) * 2
    ∧ ∀ fuel, n < fuel →
        countSteps roadGraph fuel
          (mkVillageState (str "Post Office")
             [mkParcel (str "Cabin") (str "Farm");
              mkParcel (str "Shop") (str "Post Office")])
          (lazyRobot roadGraph) [] = Ret n.
Proof.
  apply (lazyRobot_delivers roadGraph
           (mkVillageState (str "Post Office")
              [mkParcel (str "Cabin") (str "Farm");
               mkParcel (str "Shop") (str "Post Office")])).
  - apply buildGraph_closed.
  - apply roadGraph_routable.
  - split; [vm_compute; by eexists|]. intros p Hp. simpl in Hp.
    repeat (apply elem_of_cons in Hp as [->|Hp];
            [split_and!; [vm_compute; by eexists..|done]|]).
    by apply elem_of_nil in Hp.
Defined.
